(** * Vortex plot: the modulus circle of [vortex.py]

    A shallow embedding of [src/vortex.py] and the properties of its
    colour filter, its digital root and its path generation.

    Python integers are unbounded, so they are [Z]; [%] is Python's
    floor remainder, which is [Z.modulo] for a non-zero divisor.  Python
    floats are IEEE binary64, so they are Rocq's primitive floats.  The
    set [visited] is a [gset Z].  Exceptions are values of [exn]; code
    that raises returns a [result].  The nested function [plot_path]
    draws on the canvas and adds to [visited], both shared with the
    enclosing call: that state is the record [world], threaded by the
    monad [M]. *)

From Stdlib Require Import ZArith Znumtheory Floats.PrimFloat.
From stdpp Require Import base gmap strings list pretty.

Set Warnings "-inexact-float,-clear-no-such-hyp".
Local Open Scope Z_scope.

(** ** Exceptions and results *)

(** The exceptions the script can raise, one constructor per raising
    operation. *)
Inductive exn : Type :=
| ZeroDivisionError        (* [360 / modulus], [x % 0] *)
| ValueError_linspace      (* [np.linspace]: negative number of samples *)
| ValueError_to_rgb        (* [mcolors.to_rgb], [set_facecolor]: not a colour *)
| ValueError_color_like    (* [Text.set_color]: not a valid value for color *)
| ValueError_remove        (* [list.remove(x)]: x not in list *)
| ValueError_pow_zero      (* [pow]: 3rd argument cannot be 0 *)
| ValueError_not_invertible (* [pow]: base is not invertible for the given modulus *)
| IndexError_angles        (* [angles[i]]: index out of bounds *)
| IndexError_choice.       (* [random.choice] of an empty sequence *)

Inductive result (A : Type) : Type :=
| Ok (a : A)
| Raise (e : exn).
Arguments Ok {A} a.
Arguments Raise {A} e.

Global Instance exn_eq_dec : EqDecision exn.
Proof. solve_decision. Defined.

Definition result_bind {A B : Type} (r : result A) (k : A → result B) : result B :=
  match r with
  | Ok a => k a
  | Raise e => Raise e
  end.

(** ** [digital_root] (lines 40-51) *)

(** [return (n - 1) % mod + 1 if n != 0 else 0].  The conditional
    expression tests [n != 0] first, so [mod = 0] raises only for a
    non-zero [n]. *)
Definition digital_root (n mod_ : Z) : result Z :=
  if n =? 0 then Ok 0
  else if mod_ =? 0 then Raise ZeroDivisionError
  else Ok ((n - 1) mod mod_ + 1).

(** ** The built-in [pow(base, -1, mod)] *)

(** The loop of CPython's modular inversion: extended Euclid on
    [(a, n)] with floor division, keeping the coefficient [b] with
    [b * a0 ≡ a (mod n0)].  It stops when [n] is 0 and returns the last
    [a] (the gcd) with its coefficient.  [n] shrinks at every round, so
    [S (Z.to_nat n)] rounds always reach [n = 0] (lemma
    [long_invmod_spec]). *)
Fixpoint invmod_loop (rounds : nat) (a n b c : Z) : Z * Z :=
  if n =? 0 then (a, b)
  else match rounds with
       | O => (a, b)
       | S k => invmod_loop k n (a mod n) c (b - (a / n) * c)
       end.

Definition long_invmod (a n : Z) : Z * Z :=
  invmod_loop (S (Z.to_nat n)) a n 1 0.

(** [pow(base, -1, modulus)]: a zero modulus is refused, modulus 1 (or
    -1) gives 0 whatever the base, otherwise the inverse of [base] is
    returned in the range of [%] by [modulus], or [ValueError] is raised
    when there is none. *)
Definition pow_neg1 (base modulus : Z) : result Z :=
  if modulus =? 0 then Raise ValueError_pow_zero
  else
    let c := Z.abs modulus in
    if c =? 1 then Ok 0
    else
      let '(g, b) := long_invmod base c in
      if g =? 1 then
        let z := b mod c in
        Ok (if (modulus <? 0) && negb (z =? 0) then z - c else z)
      else Raise ValueError_not_invertible.

(** ** [filter_colors] (lines 12-37) *)

(** [mcolors.to_rgb] is matplotlib's: its colour table is not part of
    the script.  It is taken as a parameter [to_rgb], [None] standing
    for the [ValueError] it raises on a name it does not know. *)
Definition rgb : Type := float * float * float.

(** Line 31. *)
Definition luminance (c : rgb) : float :=
  let '(r, g, b) := c in (0.2126 * r + 0.7152 * g + 0.0722 * b)%float.

(** Line 34: [low_threshold <= luminance <= high_threshold]. *)
Definition in_band (low high lum : float) : bool :=
  (low <=? lum)%float && (lum <=? high)%float.

Definition default_low : float := 0.3%float.
Definition default_high : float := 0.7%float.

Section Colors.
Variable to_rgb : string → option rgb.

(** The [for] loop of lines 26-35, [filtered_colors] being the
    accumulator that [append] extends at its end. *)
Fixpoint filter_colors_loop (color_list filtered_colors : list string)
         (low high : float) : result (list string) :=
  match color_list with
  | [] => Ok filtered_colors
  | color_name :: rest =>
      match to_rgb color_name with
      | None => Raise ValueError_to_rgb
      | Some c =>
          if in_band low high (luminance c)
          then filter_colors_loop rest (filtered_colors ++ [color_name]) low high
          else filter_colors_loop rest filtered_colors low high
      end
  end.

Definition filter_colors (color_list : list string) (low high : float)
  : result (list string) :=
  filter_colors_loop color_list [] low high.

(** The test of line 34 as a predicate on colour names. *)
Definition retained (low high : float) (color_name : string) : bool :=
  match to_rgb color_name with
  | Some c => in_band low high (luminance c)
  | None => false
  end.
End Colors.

(** [list.remove(x)]: drops the first occurrence of [x], raises
    [ValueError] when there is none. *)
Fixpoint list_remove (x : string) (l : list string) : result (list string) :=
  match l with
  | [] => Raise ValueError_remove
  | y :: l' =>
      if decide (y = x) then Ok l'
      else result_bind (list_remove x l') (λ r, Ok (y :: r))
  end.

(** The colour names of lines 107-138, in their order. *)
Definition named_colors : list string := [
    "aliceblue"; "antiquewhite"; "aqua"; "aquamarine"; "azure";
    "beige"; "bisque"; "black"; "blanchedalmond"; "blue";
    "blueviolet"; "brown"; "burlywood"; "cadetblue"; "chartreuse";
    "chocolate"; "coral"; "cornflowerblue"; "cornsilk"; "crimson";
    "cyan"; "darkblue"; "darkcyan"; "darkgoldenrod"; "darkgray";
    "darkgreen"; "darkgrey"; "darkkhaki"; "darkmagenta"; "darkolivegreen";
    "darkorange"; "darkorchid"; "darkred"; "darksalmon"; "darkseagreen";
    "darkslateblue"; "darkslategray"; "darkslategrey"; "darkturquoise"; "darkviolet";
    "deeppink"; "deepskyblue"; "dimgray"; "dimgrey"; "dodgerblue";
    "firebrick"; "floralwhite"; "forestgreen"; "fuchsia"; "gainsboro";
    "ghostwhite"; "gold"; "goldenrod"; "gray"; "green";
    "greenyellow"; "grey"; "honeydew"; "hotpink"; "indianred";
    "indigo"; "ivory"; "khaki"; "lavender"; "lavenderblush";
    "lawngreen"; "lemonchiffon"; "lightblue"; "lightcoral"; "lightcyan";
    "lightgoldenrodyellow"; "lightgray"; "lightgreen"; "lightgrey"; "lightpink";
    "lightsalmon"; "lightseagreen"; "lightskyblue"; "lightslategray"; "lightslategrey";
    "lightsteelblue"; "lightyellow"; "lime"; "limegreen"; "linen";
    "magenta"; "maroon"; "mediumaquamarine"; "mediumblue"; "mediumorchid";
    "mediumpurple"; "mediumseagreen"; "mediumslateblue"; "mediumspringgreen"; "mediumturquoise";
    "mediumvioletred"; "midnightblue"; "mintcream"; "mistyrose"; "moccasin";
    "navajowhite"; "navy"; "oldlace"; "olive"; "olivedrab";
    "orange"; "orangered"; "orchid"; "palegoldenrod"; "palegreen";
    "paleturquoise"; "palevioletred"; "papayawhip"; "peachpuff"; "peru";
    "pink"; "plum"; "powderblue"; "purple"; "red";
    "rosybrown"; "royalblue"; "saddlebrown"; "salmon"; "sandybrown";
    "seagreen"; "seashell"; "sienna"; "silver"; "skyblue";
    "slateblue"; "slategray"; "slategrey"; "snow"; "springgreen";
    "steelblue"; "tan"; "teal"; "thistle"; "tomato";
    "turquoise"; "violet"; "wheat"; "white"; "whitesmoke";
    "yellow"; "yellowgreen"
  ]%string.

(** ** The canvas and the state shared with [plot_path] *)

(** One [ax.annotate] call (lines 155-159): an arrow from the place of
    point [from_point] to the place of point [to_point]. *)
Record arrow : Type := Arrow {
  from_point : Z;
  to_point : Z;
  arrow_color : string
}.

(** [arrows]: the arrows drawn so far, oldest first.  [visited]: the set
    of line 106.  [draws]: how many values were taken from the global
    random source.  [paths] is a trace for the statements only: one
    entry per call of [plot_path], with its seed and colour. *)
Record world : Type := World {
  arrows : list arrow;
  visited : gset Z;
  paths : list (Z * string);
  draws : nat
}.

Definition fresh_world (d : nat) : world :=
  {| arrows := []; visited := ∅; paths := []; draws := d |}.

Definition M (A : Type) : Type := world → result A * world.

Definition m_ret {A : Type} (a : A) : M A := λ w, (Ok a, w).

Definition m_bind {A B : Type} (m : M A) (k : A → M B) : M B :=
  λ w, match m w with
       | (Ok a, w') => k a w'
       | (Raise e, w') => (Raise e, w')
       end.

Definition raise {A : Type} (e : exn) : M A := λ w, (Raise e, w).

Definition lift {A : Type} (r : result A) : M A := λ w, (r, w).

Notation "'let*' x ':=' c 'in' k" := (m_bind c (λ x, k))
  (at level 10, x name, c at level 100, k at level 200).

Fixpoint for_each {A : Type} (l : list A) (body : A → M unit) : M unit :=
  match l with
  | [] => m_ret tt
  | x :: l' => let* _ := body x in for_each l' body
  end.

Definition annotate (current_number next_number : Z) (color : string) : M unit :=
  λ w, (Ok tt, {| arrows := arrows w ++ [Arrow current_number next_number color];
                  visited := visited w; paths := paths w; draws := draws w |}).

Definition visited_add (current_number : Z) : M unit :=
  λ w, (Ok tt, {| arrows := arrows w; visited := {[ current_number ]} ∪ visited w;
                  paths := paths w; draws := draws w |}).

Definition get_visited : M (gset Z) := λ w, (Ok (visited w), w).

Definition begin_path (seed : Z) (color : string) : M unit :=
  λ w, (Ok tt, {| arrows := arrows w; visited := visited w;
                  paths := paths w ++ [(seed, color)]; draws := draws w |}).

(** Lines 91 and 106: a new figure, and [visited = set()]. *)
Definition new_canvas : M unit :=
  λ w, (Ok tt, fresh_world (draws w)).

Section Circle.
(** The arguments of [plot_modulus_circle] that the path generation
    and the colours read.  [point_order_clockwise] and [offset_angle]
    only move the points on the figure and are left out. *)
Variables start multiplier modulus iterations : Z.
Variable direction : bool.
Variables background_color text_color : string.
Variable recursive : bool.
Variable to_rgb : string → option rgb.

(** The global random source of [random.choice]: [rnd k] is its k-th
    value. *)
Variable rnd : nat → nat.

(** [random.choice(seq)]. *)
Definition random_choice (seq : list string) : M string :=
  λ w, match seq with
       | [] => (Raise IndexError_choice, w)
       | c0 :: _ =>
           (Ok (nth (rnd (draws w) `mod` length seq)%nat seq c0),
            {| arrows := arrows w; visited := visited w;
               paths := paths w; draws := S (draws w) |})
       end.

(** [angles] (lines 83-85) has [modulus] entries.  [angles[i]] takes
    [-modulus <= i < modulus], a negative index counting from the
    end, and raises [IndexError] outside; the result is the entry
    read. *)
Definition angles_index (i : Z) : result Z :=
  if (0 <=? i) && (i <? modulus) then Ok i
  else if (- modulus <=? i) && (i <? 0) then Ok (i + modulus)
  else Raise IndexError_angles.

(** Lines 147-151: the recurrence step. *)
Definition next_number (current_number : Z) : result Z :=
  if direction then digital_root (current_number * multiplier) modulus
  else
    result_bind (pow_neg1 multiplier modulus) (λ inverse_multiplier,
      digital_root (current_number * inverse_multiplier) modulus).

(** The [for _ in range(iterations)] loop of lines 146-163, [n] being
    the rounds left.  The test of line 161 reads [start], the argument
    of the enclosing function, not the parameter [_start]. *)
Fixpoint plot_path_loop (n : nat) (current_number : Z) (color : string) : M unit :=
  match n with
  | O => m_ret tt
  | S n' =>
      let* next := lift (next_number current_number) in
      let* start_angle := lift (angles_index (current_number - 1)) in
      let* end_angle := lift (angles_index (next - 1)) in
      let* _ := annotate current_number next color in
      let* _ := visited_add current_number in
      if next =? start then m_ret tt
      else plot_path_loop n' next color
  end.

(** Lines 144-163. *)
Definition plot_path (_start : Z) (color : string) : M unit :=
  let* _ := begin_path _start color in
  plot_path_loop (Z.to_nat iterations) _start color.

(** The body of the loop of lines 172-176. *)
Definition plot_unvisited (colors : list string) (point : Z) : M unit :=
  let* seen := get_visited in
  if bool_decide (point ∉ seen) && negb (point =? modulus) then
    let* _c := random_choice colors in
    plot_path point _c
  else m_ret tt.

(** Lines 139-142: the palette the arc colours are drawn from. *)
Definition palette : result (list string) :=
  result_bind (list_remove background_color named_colors) (λ colors1,
  result_bind (list_remove text_color colors1) (λ colors2,
  filter_colors to_rgb colors2 default_low default_high)).

(** Lines 165-176: the initial path, then the unvisited points. *)
Definition plot_paths (colors : list string) : M unit :=
  let* _c := random_choice colors in
  let* _ := plot_path start _c in
  if recursive then for_each (seqZ 1 modulus) (plot_unvisited colors)
  else m_ret tt.

(** Lines 94 and 95: [ax.set_facecolor(background_color)] and
    [fig.set_facecolor(background_color)] hand the colour to
    matplotlib's [to_rgba], which raises as [mcolors.to_rgb] does on a
    colour it does not resolve. *)
Definition set_facecolor (color : string) : result unit :=
  match to_rgb color with
  | Some _ => Ok tt
  | None => Raise ValueError_to_rgb
  end.

(** Line 104: [plt.text(..., color=text_color)].  [Text.set_color]
    checks that matplotlib resolves the colour, the string ["auto"]
    excepted, and raises [ValueError] when it does not. *)
Definition text_set_color (color : string) : result unit :=
  if decide (color = "auto") then Ok tt
  else match to_rgb color with
       | Some _ => Ok tt
       | None => Raise ValueError_color_like
       end.

(** Lines 100-104: for [i] in [range(modulus)], the point and its
    label in the text colour. *)
Definition plot_points : M unit :=
  for_each (seqZ 0 modulus) (λ i, lift (text_set_color text_color)).

(** [plot_modulus_circle]: [360 / modulus] (line 79) raises on 0,
    [np.linspace] (lines 83-85) raises on a negative number of
    samples; then the new figure (line 91), its background colour
    (lines 94-95), the points and their labels (lines 100-104), the
    palette (lines 106-142) and the paths.  The other drawing calls take
    no colour of the caller (an arrow has a colour of the palette, which
    [filter_colors] has resolved) and are taken to succeed. *)
Definition plot_modulus_circle : M unit :=
  let* _ := (if modulus =? 0 then raise ZeroDivisionError else m_ret tt) in
  let* _ := (if modulus <? 0 then raise ValueError_linspace else m_ret tt) in
  let* _ := new_canvas in
  let* _ := lift (set_facecolor background_color) in
  let* _ := lift (set_facecolor background_color) in
  let* _ := plot_points in
  let* colors := lift palette in
  plot_paths colors.
End Circle.

(** ** The figure around the paths (lines 77 and 100-104) *)

(** Line 77: [text_scale = max(12, 30 - modulus // 3)], the font size
    of the labels. *)
Definition text_scale (modulus : Z) : Z := Z.max 12 (30 - modulus / 3).

(** Lines 100-104: for [i] in [range(modulus)], entry [i] of [x] and
    [y] (the place of [angles[i]]) is plotted with the label
    [str(i + 1)]. *)
Definition point_labels (modulus : Z) : list (Z * string) :=
  (λ i, (i, pretty (i + 1))) <$> seqZ 0 modulus.

(** * The vocabulary of the statements *)

(** The world after one round of the loop has drawn its arrow and
    marked its source. *)
Definition after_round (current_number next : Z) (color : string) (w : world) : world :=
  {| arrows := arrows w ++ [Arrow current_number next color];
     visited := {[ current_number ]} ∪ visited w;
     paths := paths w; draws := draws w |}.

(** The world after [random.choice]: one more value drawn. *)
Definition after_draw (w : world) : world :=
  {| arrows := arrows w; visited := visited w; paths := paths w; draws := S (draws w) |}.

(** The points that are the source of some arrow. *)
Definition sources (w : world) : list Z := map from_point (arrows w).

(** Every visited point is the source of an arrow. *)
Definition covered (w : world) : Prop := ∀ p, p ∈ visited w → p ∈ sources w.

(** The endpoints of the arrows, without their colour. *)
Definition edges (l : list arrow) : list (Z * Z) :=
  map (λ a, (from_point a, to_point a)) l.

(** Every arrow has both ends in [1 .. modulus]. *)
Definition points_in_range (modulus : Z) (w : world) : Prop :=
  Forall (λ a, 1 ≤ from_point a ≤ modulus ∧ 1 ≤ to_point a ≤ modulus) (arrows w).

(** The factor a step multiplies the current point by is not 0:
    forward it is the multiplier, backward the inverse, which is 0
    exactly for modulus 1. *)
Definition factor_nonzero (multiplier modulus : Z) (direction : bool) : Prop :=
  if direction then multiplier ≠ 0 else modulus ≠ 1.

(** The trace of calls: the first path is seeded from [start], every
    later one from a point of [1 .. modulus - 1]. *)
Definition seeded_from_start (start modulus : Z) (w : world) : Prop :=
  ∃ c0 rest, paths w = (start, c0) :: rest ∧
             Forall (λ sc : Z * string, 1 ≤ sc.1 ≤ modulus - 1) rest.

(** The colours of a run that has come to its paths: the figure has
    taken the background colour (lines 94-95) and the labels the text
    colour (line 104), and the palette is built (lines 139-142); or the
    exception of the first of these that raises. *)
Definition run_colors (background_color text_color : string)
           (to_rgb : string → option rgb) : result (list string) :=
  result_bind (set_facecolor to_rgb background_color) (λ _,
  result_bind (text_set_color to_rgb text_color) (λ _,
  palette background_color text_color to_rgb)).

(** A stand-in for matplotlib's colour table, used only where a whole
    run is evaluated: every name is mid-gray, so every name passes the
    filter. *)
Definition mid_gray (_ : string) : option rgb := Some (0.5, 0.5, 0.5)%float.

(** A random source that always gives 0: [random.choice] takes the
    first colour. *)
Definition first_choice (_ : nat) : nat := 0%nat.

(** Five names with the values matplotlib gives them, to run the
    filter on colours whose three channels differ. *)
Definition css_samples (color_name : string) : option rgb :=
  if decide (color_name = "red") then Some (1, 0, 0)%float
  else if decide (color_name = "lime") then Some (0, 1, 0)%float
  else if decide (color_name = "blue") then Some (0, 0, 1)%float
  else if decide (color_name = "green") then Some (0, 0.5019607843137255, 0)%float
  else if decide (color_name = "orange") then Some (1, 0.6470588235294118, 0)%float
  else None.


(** A small colour table to run the filter on: black, mid-gray and
    white by their names, nothing else. *)
Definition three_grays (color_name : string) : option rgb :=
  if decide (color_name = "black") then Some (0, 0, 0)%float
  else if decide (color_name = "gray") then Some (0.5, 0.5, 0.5)%float
  else if decide (color_name = "white") then Some (1, 1, 1)%float
  else None.

(** The arrows of a list follow one another from the point [p]: each
    starts where the one before ended. *)
Fixpoint chain_from (p : Z) (es : list arrow) : Prop :=
  match es with
  | [] => True
  | a :: es' => from_point a = p ∧ chain_from (to_point a) es'
  end.

(** The target of the last arrow of a list, [p] when there is none. *)
Definition end_point (p : Z) (es : list arrow) : Z :=
  match last es with
  | Some a => to_point a
  | None => p
  end.

(** A point whose index [p - 1] the array [angles] accepts. *)
Definition index_accepted (modulus p : Z) : Prop := 1 - modulus ≤ p ≤ modulus.

(** The digital root of the docstring of [digital_root], in base ten:
    the sum of the decimal digits, taken again until one digit is left.
    [rounds] bounds the recursion; the number itself is always
    enough. *)
Fixpoint digit_sum_upto (rounds : nat) (n : Z) : Z :=
  match rounds with
  | O => 0
  | S k => if n <? 10 then n else n mod 10 + digit_sum_upto k (n / 10)
  end.

Definition digit_sum (n : Z) : Z := digit_sum_upto (Z.to_nat n) n.

Fixpoint additive_root_upto (rounds : nat) (n : Z) : Z :=
  if n <? 10 then n
  else match rounds with
       | O => n
       | S k => additive_root_upto k (digit_sum n)
       end.

Definition additive_root (n : Z) : Z := additive_root_upto (Z.to_nat n) n.

(** The forward step on a point of [1 .. modulus], as a total
    function. *)
Definition forward_point (multiplier modulus p : Z) : Z :=
  (p * multiplier - 1) mod modulus + 1.

(** What one run of the loop of [plot_path] has done, seen from
    outside: [res] is its result and [es] the arrows it has added, from
    the point [cur], in at most [n] rounds. *)
Definition loop_outcome (start multiplier modulus : Z) (direction : bool)
           (n : nat) (cur : Z) (c : string)
           (res : result unit) (es : list arrow) : Prop :=
  (length es ≤ n)%nat ∧
  chain_from cur es ∧
  Forall (λ a, next_number multiplier modulus direction (from_point a)
               = Ok (to_point a) ∧
               arrow_color a = c ∧
               index_accepted modulus (from_point a) ∧
               index_accepted modulus (to_point a)) es ∧
  (∀ init a rest, es = init ++ a :: rest → rest ≠ [] → to_point a ≠ start) ∧
  (res = Ok tt → (length es < n)%nat → es ≠ [] ∧ end_point cur es = start) ∧
  (res = Ok tt → end_point cur es ≠ start ∨ es = [] → length es = n) ∧
  (∀ e, res = Raise e →
     let p := end_point cur es in
     next_number multiplier modulus direction p = Raise e ∨
     (e = IndexError_angles ∧
      ∃ next, next_number multiplier modulus direction p = Ok next ∧
              (¬ index_accepted modulus p ∨ ¬ index_accepted modulus next))).

(** The world after a whole path: its arrows drawn and their sources
    marked. *)
Definition after_arrows (es : list arrow) (w : world) : world :=
  {| arrows := arrows w ++ es;
     visited := list_to_set (from_point <$> es) ∪ visited w;
     paths := paths w; draws := draws w |}.

(** The world after [plot_path] has been entered. *)
Definition after_begin (seed : Z) (color : string) (w : world) : world :=
  {| arrows := arrows w; visited := visited w;
     paths := paths w ++ [(seed, color)]; draws := draws w |}.

(** Two worlds that show the same figure up to the colours: the same
    visited points, the same arrows end to end, the same seeds. *)
Definition same_shape (w w' : world) : Prop :=
  visited w = visited w' ∧
  edges (arrows w) = edges (arrows w') ∧
  (paths w).*1 = (paths w').*1.

(** * Properties *)

(** ** The digital root *)

Lemma digital_root_nonzero (n mod_ : Z) :
  n ≠ 0 → mod_ ≠ 0 → digital_root n mod_ = Ok ((n - 1) mod mod_ + 1).
Proof.
  intros Hn Hm. unfold digital_root.
  destruct (Z.eqb_spec n 0) as [|_]; [contradiction|].
  destruct (Z.eqb_spec mod_ 0) as [|_]; [contradiction|reflexivity].
Qed.

Lemma digital_root_in_range (n mod_ r : Z) :
  n ≠ 0 → 1 ≤ mod_ → digital_root n mod_ = Ok r → 1 ≤ r ≤ mod_.
Proof.
  intros Hn Hm. rewrite digital_root_nonzero by lia.
  intros [= <-]. pose proof (Z.mod_pos_bound (n - 1) mod_). lia.
Qed.

(** The digital root is the representative of [n] in [1 .. mod]. *)
Lemma digital_root_congr (n mod_ r : Z) :
  n ≠ 0 → 1 ≤ mod_ → digital_root n mod_ = Ok r → (mod_ | r - n).
Proof.
  intros Hn Hm. rewrite digital_root_nonzero by lia.
  intros [= <-]. exists (- ((n - 1) / mod_)).
  pose proof (Z.div_mod (n - 1) mod_). lia.
Qed.

(** Two points of [1 .. mod] that differ by a multiple of [mod] are
    the same point. *)
Lemma point_unique (mod_ p q : Z) :
  1 ≤ p ≤ mod_ → 1 ≤ q ≤ mod_ → (mod_ | p - q) → p = q.
Proof.
  intros Hp Hq [k Hk].
  assert (k = 0) by nia. lia.
Qed.

(** ** The modular inverse *)

Section Invmod.
Variables a0 n0 : Z.

(** The coefficient invariant of the loop and its result: the first
    component is the gcd, the second its coefficient modulo [n0]. *)
Lemma invmod_loop_spec (rounds : nat) :
  ∀ a n b c : Z,
    0 ≤ n ≤ Z.of_nat rounds →
    (n = 0 → 0 ≤ a) →
    (n0 | b * a0 - a) →
    (n0 | c * a0 - n) →
    let '(g, x) := invmod_loop rounds a n b c in
    g = Z.gcd a n ∧ (n0 | x * a0 - g).
Proof.
  induction rounds as [|k IH]; intros a n b c Hn Ha Hb Hc.
  - assert (n = 0) as -> by lia. simpl.
    rewrite Z.gcd_0_r, Z.abs_eq by auto. auto.
  - cbn [invmod_loop]. destruct (Z.eqb_spec n 0) as [->|Hn0].
    + rewrite Z.gcd_0_r, Z.abs_eq by auto. auto.
    + pose proof (Z.mod_pos_bound a n ltac:(lia)) as Hr.
      specialize (IH n (a mod n) c (b - a / n * c)).
      destruct (invmod_loop k n (a mod n) c (b - a / n * c)) as [g x].
      destruct IH as [Hg Hx]; [lia|lia|assumption| |].
      * replace ((b - a / n * c) * a0 - a mod n)
          with ((b * a0 - a) - (a / n) * (c * a0 - n))
          by (rewrite Z.mod_eq by assumption; ring).
        apply Z.divide_sub_r; [assumption|].
        by apply Z.divide_mul_r.
      * split; [|assumption].
        rewrite Hg, (Z.gcd_comm n), Z.gcd_mod by assumption.
        apply Z.gcd_comm.
Qed.
End Invmod.

Lemma long_invmod_spec (a n : Z) :
  0 ≤ n →
  let '(g, x) := long_invmod a n in
  (n = 0 ∨ g = Z.gcd a n) ∧ (n | x * a - g).
Proof.
  intros Hn. unfold long_invmod.
  destruct (Z.eqb_spec n 0) as [->|Hn0].
  - simpl. split; [by left|]. exists 0. ring.
  - pose proof (invmod_loop_spec a n (S (Z.to_nat n)) a n 1 0) as H.
    destruct (invmod_loop (S (Z.to_nat n)) a n 1 0) as [g x].
    destruct H as [Hg Hx]; [lia|lia|exists 0; ring|exists (-1); ring|].
    split; [by right|assumption].
Qed.

(** [pow(base, -1, modulus)] for a modulus of at least 2 and a base
    coprime to it: the inverse, in [1 .. modulus - 1]. *)
Lemma pow_neg1_invertible (base modulus : Z) :
  2 ≤ modulus → Z.gcd base modulus = 1 →
  ∃ inv, pow_neg1 base modulus = Ok inv ∧
         1 ≤ inv < modulus ∧ (modulus | inv * base - 1).
Proof.
  intros Hm Hg. unfold pow_neg1.
  destruct (Z.eqb_spec modulus 0) as [|_]; [lia|].
  rewrite (Z.abs_eq modulus) by lia.
  destruct (Z.eqb_spec modulus 1) as [|_]; [lia|].
  pose proof (long_invmod_spec base modulus ltac:(lia)) as H.
  destruct (long_invmod base modulus) as [g x].
  destruct H as [[?|Hgx] Hx]; [lia|].
  rewrite Hgx, Hg in *. simpl.
  replace (modulus <? 0) with false by (symmetry; apply Z.ltb_ge; lia).
  simpl. exists (x mod modulus).
  pose proof (Z.mod_pos_bound x modulus ltac:(lia)) as Hb.
  assert (modulus | x mod modulus * base - 1) as Hd.
  { replace (x mod modulus * base - 1)
      with ((x * base - 1) - modulus * (x / modulus) * base)
      by (rewrite Z.mod_eq by lia; ring).
    apply Z.divide_sub_r; [assumption|].
    apply Z.divide_mul_l, Z.divide_mul_l, Z.divide_refl. }
  split; [reflexivity|]. split; [|assumption].
  destruct (Z.eq_dec (x mod modulus) 0) as [E|]; [|lia].
  rewrite E in Hd. destruct Hd as [k Hk]. simpl in Hk.
  assert (k < 0) by nia. nia.
Qed.

(** [pow(base, -1, modulus)] for a base that has a common factor with
    the modulus. *)
Lemma pow_neg1_not_invertible (base modulus : Z) :
  modulus ≠ 0 → Z.gcd base modulus ≠ 1 →
  pow_neg1 base modulus = Raise ValueError_not_invertible.
Proof.
  intros Hm Hg. unfold pow_neg1.
  destruct (Z.eqb_spec modulus 0) as [|_]; [contradiction|].
  destruct (Z.eqb_spec (Z.abs modulus) 1) as [E|_].
  { exfalso. apply Hg. rewrite <- Z.gcd_abs_r, E. apply Z.gcd_1_r. }
  pose proof (long_invmod_spec base (Z.abs modulus) ltac:(lia)) as H.
  destruct (long_invmod base (Z.abs modulus)) as [g x].
  destruct H as [[?|Hgx] _]; [lia|].
  rewrite Z.gcd_abs_r in Hgx.
  destruct (Z.eqb_spec g 1); [congruence|reflexivity].
Qed.

(** C4. For every [n >= 1] and [mod >= 1], [digital_root(n, mod)]
    returns a value in [1 .. mod]; [digital_root(0, mod)] is 0;
    [digital_root(mod, mod)] is [mod] itself, not 0; and
    [digital_root(10, 9) = 1], [digital_root(18, 9) = 9],
    [digital_root(9, 9) = 9]. *)
Theorem digital_root_range (n mod_ : Z) :
  1 ≤ n → 1 ≤ mod_ →
  (∃ r, digital_root n mod_ = Ok r ∧ 1 ≤ r ≤ mod_) ∧
  digital_root 0 mod_ = Ok 0 ∧
  digital_root mod_ mod_ = Ok mod_ ∧
  digital_root 10 9 = Ok 1 ∧
  digital_root 18 9 = Ok 9 ∧
  digital_root 9 9 = Ok 9.
Proof.
  intros Hn Hm. repeat split; try reflexivity.
  - exists ((n - 1) mod mod_ + 1).
    rewrite digital_root_nonzero by lia. split; [reflexivity|].
    pose proof (Z.mod_pos_bound (n - 1) mod_). lia.
  - rewrite digital_root_nonzero by lia.
    rewrite Z.mod_small by lia. f_equal. lia.
Qed.

Lemma digital_root_range_witness :
  (∃ r, digital_root 25 7 = Ok r ∧ 1 ≤ r ≤ 7) ∧
  digital_root 0 7 = Ok 0 ∧
  digital_root 7 7 = Ok 7 ∧
  digital_root 10 9 = Ok 1 ∧
  digital_root 18 9 = Ok 9 ∧
  digital_root 9 9 = Ok 9.
Proof. apply (digital_root_range 25 7); lia. Defined.

(** ** The recurrence step *)

Section StepFacts.
Variables multiplier modulus : Z.

Lemma next_number_forward (current_number : Z) :
  next_number multiplier modulus true current_number
  = digital_root (current_number * multiplier) modulus.
Proof. reflexivity. Qed.

Lemma next_number_backward (current_number inverse_multiplier : Z) :
  pow_neg1 multiplier modulus = Ok inverse_multiplier →
  next_number multiplier modulus false current_number
  = digital_root (current_number * inverse_multiplier) modulus.
Proof. intros H. unfold next_number. rewrite H. reflexivity. Qed.

(** When [pow] returns for a modulus of at least 2, the multiplier is
    coprime to the modulus and the inverse is not 0. *)
Lemma pow_neg1_Ok_nonzero (inverse_multiplier : Z) :
  2 ≤ modulus →
  pow_neg1 multiplier modulus = Ok inverse_multiplier →
  1 ≤ inverse_multiplier < modulus ∧ (modulus | inverse_multiplier * multiplier - 1).
Proof.
  intros Hm H.
  destruct (Z.eq_dec (Z.gcd multiplier modulus) 1) as [Hg|Hg].
  - destruct (pow_neg1_invertible multiplier modulus Hm Hg) as (i & Hi & ?).
    rewrite Hi in H. injection H as <-. assumption.
  - rewrite pow_neg1_not_invertible in H by (auto; lia). discriminate.
Qed.

Lemma next_number_in_range (direction : bool) (current_number next : Z) :
  1 ≤ modulus → factor_nonzero multiplier modulus direction →
  1 ≤ current_number ≤ modulus →
  next_number multiplier modulus direction current_number = Ok next →
  1 ≤ next ≤ modulus.
Proof.
  intros Hm Hf Hc. destruct direction; simpl in Hf.
  - rewrite next_number_forward.
    apply digital_root_in_range; [nia|assumption].
  - unfold next_number.
    destruct (pow_neg1 multiplier modulus) as [i|e] eqn:Hi; [|discriminate].
    apply pow_neg1_Ok_nonzero in Hi as [Hi _]; [|lia]. simpl.
    apply digital_root_in_range; [nia|assumption].
Qed.
End StepFacts.

(** C5, as the specification states it, fails for modulus 1: every multiplier
    is invertible modulo 1, [pow(1, -1, 1)] is 0, and the backward step
    from point 1 gives [digital_root(0, 1) = 0]. *)
Lemma forward_backward_modulus_1 :
  ¬ (∀ p multiplier modulus : Z,
       1 ≤ p ≤ modulus → Z.gcd multiplier modulus = 1 →
       ∃ q, next_number multiplier modulus true p = Ok q ∧
            next_number multiplier modulus false q = Ok p).
Proof.
  intros H. destruct (H 1 1 1) as (q & Hq & Hp); [lia|reflexivity|].
  vm_compute in Hq. injection Hq as <-.
  vm_compute in Hp. discriminate.
Qed.

(** C5 (amended). For a modulus of at least 2, every point [p] of
    [1 .. modulus] and every multiplier coprime to the modulus: the
    forward step from [p] returns a point [q], and the backward step
    from [q] returns [p]. *)
Theorem forward_then_backward (p multiplier modulus : Z) :
  2 ≤ modulus → 1 ≤ p ≤ modulus → Z.gcd multiplier modulus = 1 →
  ∃ q, next_number multiplier modulus true p = Ok q ∧
       next_number multiplier modulus false q = Ok p.
Proof.
  intros Hm Hp Hg.
  assert (multiplier ≠ 0) as Hmul.
  { intros ->. rewrite Z.gcd_0_l, Z.abs_eq in Hg; lia. }
  destruct (pow_neg1_invertible multiplier modulus Hm Hg) as (inv & Hinv & Hi & Hd).
  assert (p * multiplier ≠ 0) as Hpm by (apply Z.neq_mul_0; lia).
  exists ((p * multiplier - 1) mod modulus + 1).
  set (q := (p * multiplier - 1) mod modulus + 1).
  assert (digital_root (p * multiplier) modulus = Ok q) as Hq
    by (apply digital_root_nonzero; lia).
  split; [exact Hq|].
  assert (1 ≤ modulus) as Hm1 by lia.
  pose proof (digital_root_in_range _ _ _ Hpm Hm1 Hq) as Hqr.
  pose proof (digital_root_congr _ _ _ Hpm Hm1 Hq) as Hqc.
  rewrite (next_number_backward _ _ _ _ Hinv).
  assert (q * inv ≠ 0) as Hqi by (apply Z.neq_mul_0; lia).
  rewrite digital_root_nonzero by lia. f_equal.
  set (r := (q * inv - 1) mod modulus + 1).
  assert (digital_root (q * inv) modulus = Ok r) as Hr
    by (apply digital_root_nonzero; lia).
  pose proof (digital_root_in_range _ _ _ Hqi Hm1 Hr) as Hrr.
  pose proof (digital_root_congr _ _ _ Hqi Hm1 Hr) as Hrc.
  apply (point_unique modulus); [assumption..|].
  replace (r - p)
    with ((r - q * inv) + inv * (q - p * multiplier) + p * (inv * multiplier - 1))
    by ring.
  apply Z.divide_add_r; [apply Z.divide_add_r|].
  - exact Hrc.
  - by apply Z.divide_mul_r.
  - by apply Z.divide_mul_r.
Qed.

Lemma forward_then_backward_witness :
  ∃ q, next_number 7 100 true 49 = Ok q ∧ next_number 7 100 false q = Ok 49.
Proof. apply (forward_then_backward 49 7 100); [lia|lia|reflexivity]. Defined.

(** ** The loop of [plot_path] *)

Lemma for_each_invariant {A : Type} (I : world → Prop) (body : A → M unit) (l : list A) :
  (∀ x w, x ∈ l → I w → I (snd (body x w))) →
  ∀ w, I w → I (snd (for_each l body w)).
Proof.
  induction l as [|x l IH]; intros Hbody w Hw; [exact Hw|].
  simpl. unfold m_bind.
  pose proof (Hbody x w ltac:(left) Hw) as Hx.
  destruct (body x w) as [[[]|e] w1]; simpl in *; [|exact Hx].
  apply IH; [|exact Hx].
  intros y w' Hy. apply Hbody. by right.
Qed.

Section PathFacts.
Variables start multiplier modulus iterations : Z.
Variable direction : bool.

Local Abbreviation step := (next_number multiplier modulus direction).
Local Abbreviation loop := (plot_path_loop start multiplier modulus direction).
Local Abbreviation path := (plot_path start multiplier modulus iterations direction).

(** One round of the loop, spelled out. *)
Lemma plot_path_loop_S (n : nat) (current_number : Z) (color : string) (w : world) :
  loop (S n) current_number color w =
  match step current_number with
  | Raise e => (Raise e, w)
  | Ok next =>
      match angles_index modulus (current_number - 1) with
      | Raise e => (Raise e, w)
      | Ok _ =>
          match angles_index modulus (next - 1) with
          | Raise e => (Raise e, w)
          | Ok _ =>
              if next =? start then (Ok tt, after_round current_number next color w)
              else loop n next color (after_round current_number next color w)
          end
      end
  end.
Proof.
  cbn [plot_path_loop]. unfold m_bind, lift.
  destruct (step current_number) as [next|e]; [|reflexivity].
  destruct (angles_index modulus (current_number - 1)); [|reflexivity].
  destruct (angles_index modulus (next - 1)); [|reflexivity].
  cbn. destruct (next =? start); reflexivity.
Qed.

Lemma angles_index_in_range (p : Z) :
  1 ≤ p ≤ modulus → angles_index modulus (p - 1) = Ok (p - 1).
Proof.
  intros Hp. unfold angles_index.
  destruct (Z.leb_spec 0 (p - 1)); [|lia].
  destruct (Z.ltb_spec (p - 1) modulus); [reflexivity|lia].
Qed.

(** A step that raises ends the loop at once, with the world as it
    was. *)
Lemma plot_path_loop_raise (n : nat) (current_number : Z) (color : string)
      (w : world) (e : exn) :
  step current_number = Raise e →
  loop (S n) current_number color w = (Raise e, w).
Proof. intros H. rewrite plot_path_loop_S, H. reflexivity. Qed.

Lemma plot_path_raise (_start : Z) (color : string) (w : world) (e : exn) :
  1 ≤ iterations →
  step _start = Raise e →
  fst (path _start color w) = Raise e ∧
  arrows (snd (path _start color w)) = arrows w ∧
  visited (snd (path _start color w)) = visited w.
Proof.
  intros Hi H. unfold plot_path, m_bind, begin_path.
  destruct (Z.to_nat iterations) as [|n] eqn:E; [lia|].
  rewrite (plot_path_loop_raise _ _ _ _ e) by assumption. auto.
Qed.

Lemma plot_path_loop_in_range (n : nat) :
  1 ≤ modulus → factor_nonzero multiplier modulus direction →
  ∀ (current_number : Z) (color : string) (w : world),
    1 ≤ current_number ≤ modulus →
    points_in_range modulus w →
    points_in_range modulus (snd (loop n current_number color w)).
Proof.
  intros Hm Hf. induction n as [|n IH]; intros cur c w Hc Hw; [exact Hw|].
  rewrite plot_path_loop_S.
  destruct (step cur) as [next|e] eqn:Hs; [|exact Hw].
  pose proof (next_number_in_range _ _ _ _ _ Hm Hf Hc Hs) as Hn.
  rewrite !angles_index_in_range by assumption.
  assert (points_in_range modulus (after_round cur next c w)) as Hw1.
  { unfold points_in_range. simpl. apply Forall_app. split; [exact Hw|].
    apply Forall_singleton. simpl. auto. }
  destruct (next =? start); [exact Hw1|].
  by apply IH.
Qed.

Lemma plot_path_in_range (_start : Z) (color : string) (w : world) :
  1 ≤ modulus → factor_nonzero multiplier modulus direction →
  1 ≤ _start ≤ modulus →
  points_in_range modulus w →
  points_in_range modulus (snd (path _start color w)).
Proof.
  intros Hm Hf Hs Hw. unfold plot_path, m_bind, begin_path.
  by apply plot_path_loop_in_range.
Qed.
End PathFacts.

(** ** What a path leaves on the canvas *)

Lemma covered_after_round (current_number next : Z) (color : string) (w : world) :
  covered w → covered (after_round current_number next color w).
Proof.
  intros Hw p. unfold sources. simpl. rewrite map_app, elem_of_union, elem_of_app.
  intros [Hp|Hp]; [right|left; by apply Hw].
  apply elem_of_singleton in Hp as ->. simpl. by left.
Qed.

Lemma random_choice_spec (rnd : nat → nat) (seq : list string) (w : world) :
  (seq = [] ∧ random_choice rnd seq w = (Raise IndexError_choice, w)) ∨
  (∃ c, c ∈ seq ∧ random_choice rnd seq w = (Ok c, after_draw w)).
Proof.
  destruct seq as [|c0 seq]; [by left|right].
  eexists. split; [|reflexivity].
  apply list_elem_of_In, nth_In, Nat.mod_upper_bound. discriminate.
Qed.

Section LoopFrame.
Variables start multiplier modulus iterations : Z.
Variable direction : bool.

Local Abbreviation loop := (plot_path_loop start multiplier modulus direction).
Local Abbreviation path := (plot_path start multiplier modulus iterations direction).

(** What the loop keeps: the trace of calls and the random source are
    untouched, arrows are only added at the end, visited points stay
    visited, and every point it marks has its arrow. *)
Lemma plot_path_loop_frame (n : nat) :
  ∀ (current_number : Z) (color : string) (w : world),
    let w' := snd (loop n current_number color w) in
    paths w' = paths w ∧ draws w' = draws w ∧
    visited w ⊆ visited w' ∧
    (covered w → covered w') ∧
    ∃ es, arrows w' = arrows w ++ es.
Proof.
  induction n as [|n IH]; intros cur c w; cbv zeta.
  { simpl. repeat split; [set_solver|auto|]. exists []. by rewrite app_nil_r. }
  rewrite plot_path_loop_S.
  assert (paths w = paths w ∧ draws w = draws w ∧ visited w ⊆ visited w ∧
          (covered w → covered w) ∧ ∃ es, arrows w = arrows w ++ es) as Hrefl.
  { repeat split; [set_solver|auto|]. exists []. by rewrite app_nil_r. }
  destruct (next_number multiplier modulus direction cur) as [next|e]; [|exact Hrefl].
  destruct (angles_index modulus (cur - 1)); [|exact Hrefl].
  destruct (angles_index modulus (next - 1)); [|exact Hrefl].
  assert (let w1 := after_round cur next c w in
          paths w1 = paths w ∧ draws w1 = draws w ∧ visited w ⊆ visited w1 ∧
          (covered w → covered w1) ∧ ∃ es, arrows w1 = arrows w ++ es) as H1.
  { simpl. repeat split; [set_solver|apply covered_after_round|].
    by eexists. }
  destruct (next =? start); [exact H1|].
  destruct H1 as (Hp & Hd & Hv & Hc & es1 & Ha).
  destruct (IH next c (after_round cur next c w)) as (Hp' & Hd' & Hv' & Hc' & es2 & Ha').
  repeat split.
  - congruence.
  - congruence.
  - set_solver.
  - auto.
  - exists (es1 ++ es2). rewrite Ha', Ha, app_assoc. reflexivity.
Qed.

(** A loop of at least one round that returns has marked the point it
    began at. *)
Lemma plot_path_loop_marks (n : nat) (current_number : Z) (color : string)
      (w w' : world) :
  loop (S n) current_number color w = (Ok tt, w') →
  current_number ∈ visited w'.
Proof.
  rewrite plot_path_loop_S.
  destruct (next_number multiplier modulus direction current_number) as [next|e];
    [|discriminate].
  destruct (angles_index modulus (current_number - 1)); [|discriminate].
  destruct (angles_index modulus (next - 1)); [|discriminate].
  destruct (next =? start).
  - intros [= <-]. simpl. set_solver.
  - intros H.
    destruct (plot_path_loop_frame n next color
                (after_round current_number next color w)) as (_ & _ & Hv & _).
    rewrite H in Hv. simpl in Hv. set_solver.
Qed.

Lemma plot_path_frame (_start : Z) (color : string) (w : world) :
  let w' := snd (path _start color w) in
  paths w' = paths w ++ [(_start, color)] ∧ draws w' = draws w ∧
  visited w ⊆ visited w' ∧
  (covered w → covered w') ∧
  ∃ es, arrows w' = arrows w ++ es.
Proof.
  unfold plot_path, m_bind, begin_path. simpl.
  apply (plot_path_loop_frame (Z.to_nat iterations) _start color
           {| arrows := arrows w; visited := visited w;
              paths := paths w ++ [(_start, color)]; draws := draws w |}).
Qed.

Lemma plot_path_marks (_start : Z) (color : string) (w w' : world) :
  1 ≤ iterations →
  path _start color w = (Ok tt, w') →
  _start ∈ visited w'.
Proof.
  intros Hi. unfold plot_path, m_bind, begin_path.
  destruct (Z.to_nat iterations) as [|n] eqn:E; [lia|].
  apply plot_path_loop_marks.
Qed.
End LoopFrame.

(** ** The whole run *)

Section RunFacts.
Variables start multiplier modulus iterations : Z.
Variable direction : bool.
Variables background_color text_color : string.
Variable recursive : bool.
Variable to_rgb : string → option rgb.
Variable rnd : nat → nat.

Local Abbreviation path := (plot_path start multiplier modulus iterations direction).
Local Abbreviation unvisited :=
  (plot_unvisited start multiplier modulus iterations direction rnd).
Local Abbreviation all_paths :=
  (plot_paths start multiplier modulus iterations direction recursive rnd).
Local Abbreviation circle :=
  (plot_modulus_circle start multiplier modulus iterations direction
     background_color text_color recursive to_rgb rnd).

(** The labelling loop, which runs at least once, is one check of the
    text colour. *)
Lemma plot_points_run (w : world) :
  1 ≤ modulus →
  plot_points modulus text_color to_rgb w
  = (text_set_color to_rgb text_color, w).
Proof.
  intros Hm. unfold plot_points.
  assert (∀ l w', for_each l (λ _ : Z, lift (text_set_color to_rgb text_color)) w'
                  = match l with
                    | [] => (Ok tt, w')
                    | _ :: _ => (text_set_color to_rgb text_color, w')
                    end) as Hloop.
  { induction l as [|x l IH]; intros w'; [reflexivity|].
    simpl. unfold m_bind, lift.
    destruct (text_set_color to_rgb text_color) as [[]|e] eqn:E; [|reflexivity].
    rewrite IH. by destruct l. }
  rewrite Hloop, seqZ_cons by lia. reflexivity.
Qed.

(** Past the two checks on [modulus], the run is the paths on a new
    canvas, or the exception of the colours. *)
Lemma plot_modulus_circle_run (w : world) :
  1 ≤ modulus →
  circle w =
  match run_colors background_color text_color to_rgb with
  | Ok colors => all_paths colors (fresh_world (draws w))
  | Raise e => (Raise e, fresh_world (draws w))
  end.
Proof.
  intros Hm. unfold plot_modulus_circle, run_colors, m_bind, new_canvas.
  destruct (Z.eqb_spec modulus 0); [lia|].
  destruct (Z.ltb_spec modulus 0); [lia|]. simpl.
  destruct (set_facecolor to_rgb background_color) as [[]|e]; [|reflexivity].
  simpl. rewrite plot_points_run by assumption.
  destruct (text_set_color to_rgb text_color) as [[]|e]; [|reflexivity].
  simpl.
  destruct (palette background_color text_color to_rgb); reflexivity.
Qed.

(** Colours that are ready: matplotlib has taken the two colours and
    the palette is built. *)
Lemma run_colors_Ok (colors : list string) :
  run_colors background_color text_color to_rgb = Ok colors →
  is_Some (to_rgb background_color) ∧
  text_set_color to_rgb text_color = Ok tt ∧
  palette background_color text_color to_rgb = Ok colors.
Proof.
  unfold run_colors, set_facecolor.
  destruct (to_rgb background_color) as [v|]; [|discriminate]. simpl.
  destruct (text_set_color to_rgb text_color) as [[]|e]; [|discriminate].
  simpl. intros H. split; [by eexists|]. by split.
Qed.

(** With two colours that matplotlib resolves, the colours of a run
    are its palette. *)
Lemma run_colors_renderable :
  is_Some (to_rgb background_color) → is_Some (to_rgb text_color) →
  run_colors background_color text_color to_rgb
  = palette background_color text_color to_rgb.
Proof.
  intros [v Hv] [v' Hv']. unfold run_colors, set_facecolor, text_set_color.
  rewrite Hv, Hv'. simpl. by destruct (decide (text_color = "auto")).
Qed.

(** A run that fails one of the two checks on [modulus] draws
    nothing. *)
Lemma plot_modulus_circle_bad_modulus (w : world) :
  modulus < 1 →
  ∃ e, circle w = (Raise e, w).
Proof.
  intros Hm. unfold plot_modulus_circle, m_bind, raise.
  destruct (Z.eqb_spec modulus 0); [by eexists|]. simpl.
  destruct (Z.ltb_spec modulus 0); [by eexists|lia].
Qed.

(** The paths, spelled out. *)
Lemma plot_paths_run (colors : list string) (w : world) :
  colors ≠ [] →
  ∃ c, c ∈ colors ∧
    all_paths colors w =
    match path start c (after_draw w) with
    | (Ok _, w1) =>
        if recursive then for_each (seqZ 1 modulus) (unvisited colors) w1
        else (Ok tt, w1)
    | (Raise e, w1) => (Raise e, w1)
    end.
Proof.
  intros Hne. destruct (random_choice_spec rnd colors w) as [[? _]|(c & Hc & Hr)];
    [contradiction|].
  exists c. split; [exact Hc|].
  unfold plot_paths, m_bind. rewrite Hr.
  destruct (path start c (after_draw w)) as [[[]|e] w1]; [|reflexivity].
  destruct recursive; reflexivity.
Qed.

(** The body of the loop over the points, spelled out. *)
Lemma plot_unvisited_run (colors : list string) (point : Z) (w : world) :
  unvisited colors point w =
  if bool_decide (point ∉ visited w) && negb (point =? modulus) then
    match random_choice rnd colors w with
    | (Ok c, w1) => path point c w1
    | (Raise e, w1) => (Raise e, w1)
    end
  else (Ok tt, w).
Proof.
  unfold plot_unvisited, m_bind, get_visited.
  destruct (bool_decide (point ∉ visited w) && negb (point =? modulus)); reflexivity.
Qed.

(** An invariant of the world that [random.choice] cannot break and
    that every path seeded in [1 .. modulus - 1] keeps is kept by the
    loop over the points. *)
Lemma unvisited_points_invariant (I : world → Prop) (colors : list string) :
  (∀ w, I w → I (after_draw w)) →
  (∀ p c w, 1 ≤ p < modulus → I w → I (snd (path p c w))) →
  ∀ w, I w → I (snd (for_each (seqZ 1 modulus) (unvisited colors) w)).
Proof.
  intros Hdraw Hpath. apply for_each_invariant.
  intros p w Hp Hw. rewrite plot_unvisited_run.
  apply elem_of_seqZ in Hp.
  destruct (bool_decide (p ∉ visited w)); [|exact Hw]. simpl.
  destruct (Z.eqb_spec p modulus); [exact Hw|]. simpl.
  destruct (random_choice_spec rnd colors w) as [[_ ->]|(c & _ & ->)]; [exact Hw|].
  apply Hpath; [lia|]. by apply Hdraw.
Qed.

(** The same for the whole of the paths. *)
Lemma plot_paths_invariant (I : world → Prop) (colors : list string) :
  (∀ w, I w → I (after_draw w)) →
  (∀ c w, I w → I (snd (path start c w))) →
  (∀ p c w, 1 ≤ p < modulus → I w → I (snd (path p c w))) →
  ∀ w, I w → I (snd (all_paths colors w)).
Proof.
  intros Hdraw Hfirst Hpath w Hw.
  destruct colors as [|c0 colors'] eqn:Ec; [exact Hw|].
  destruct (plot_paths_run (c0 :: colors') w) as (c & _ & ->); [discriminate|].
  pose proof (Hfirst c (after_draw w) (Hdraw w Hw)) as H1.
  destruct (path start c (after_draw w)) as [[[]|e] w1]; simpl in *; [|exact H1].
  destruct recursive; [|exact H1].
  by apply unvisited_points_invariant.
Qed.
End RunFacts.

(** ** Coverage by the recursive paths *)

Section Coverage.
Variables start multiplier modulus iterations : Z.
Variable direction : bool.
Variable rnd : nat → nat.

Local Abbreviation path := (plot_path start multiplier modulus iterations direction).
Local Abbreviation unvisited :=
  (plot_unvisited start multiplier modulus iterations direction rnd).

Lemma plot_unvisited_visited_mono (colors : list string) (point : Z) (w : world) :
  visited w ⊆ visited (snd (unvisited colors point w)).
Proof.
  rewrite plot_unvisited_run.
  destruct (bool_decide (point ∉ visited w) && negb (point =? modulus)); [|done].
  destruct (random_choice_spec rnd colors w) as [[_ ->]|(c & _ & ->)]; [done|].
  destruct (plot_path_frame start multiplier modulus iterations direction
              point c (after_draw w)) as (_ & _ & Hv & _).
  exact Hv.
Qed.

(** A point other than [modulus] is visited once the loop body has
    returned for it: it was visited before, or its own path has just
    marked it. *)
Lemma plot_unvisited_marks (colors : list string) (point : Z) (w w' : world) :
  1 ≤ iterations → point ≠ modulus →
  unvisited colors point w = (Ok tt, w') →
  point ∈ visited w'.
Proof.
  intros Hi Hp. rewrite plot_unvisited_run.
  destruct (bool_decide_reflect (point ∉ visited w)) as [Hn|Hn]; simpl.
  - destruct (Z.eqb_spec point modulus); [contradiction|]. simpl.
    destruct (random_choice_spec rnd colors w) as [[_ ->]|(c & _ & ->)]; [discriminate|].
    by apply plot_path_marks.
  - intros [= <-]. by apply dec_stable.
Qed.

Lemma for_each_unvisited_marks (colors : list string) (l : list Z) :
  1 ≤ iterations →
  ∀ w w', for_each l (unvisited colors) w = (Ok tt, w') →
          ∀ p, p ∈ l → p ≠ modulus → p ∈ visited w'.
Proof.
  intros Hi. induction l as [|x l IH]; intros w w' Hrun p Hp Hne.
  { by apply elem_of_nil in Hp. }
  simpl in Hrun. unfold m_bind in Hrun.
  destruct (unvisited colors x w) as [[[]|e] w1] eqn:Hx; [|discriminate].
  apply elem_of_cons in Hp as [->|Hp]; [|by apply (IH w1)].
  pose proof (plot_unvisited_marks _ _ _ _ Hi Hne Hx) as Hv.
  pose proof (for_each_invariant (λ w2, x ∈ visited w2) (unvisited colors) l) as Hinv.
  replace w' with (snd (for_each l (unvisited colors) w1)) by (by rewrite Hrun).
  apply Hinv; [|exact Hv].
  intros y w2 _ Hy. by apply plot_unvisited_visited_mono.
Qed.

Lemma seeded_from_start_path (p : Z) (c : string) (w : world) :
  1 ≤ p < modulus →
  seeded_from_start start modulus w →
  seeded_from_start start modulus (snd (path p c w)).
Proof.
  intros Hp (c0 & rest & Hw & Hrest).
  destruct (plot_path_frame start multiplier modulus iterations direction p c w)
    as (Hpaths & _).
  exists c0, (rest ++ [(p, c)]). rewrite Hpaths, Hw. split; [reflexivity|].
  apply Forall_app. split; [exact Hrest|].
  apply Forall_singleton. simpl. lia.
Qed.
End Coverage.

(** ** Path generation against the specification *)

(** Without an iteration no arrow is drawn, whatever the colour table
    and the random source. *)
Lemma no_iterations_no_arrows
      (start multiplier modulus iterations : Z) (direction : bool)
      (background_color text_color : string) (recursive : bool)
      (to_rgb : string → option rgb) (rnd : nat → nat) (w : world) :
  1 ≤ modulus → iterations ≤ 0 →
  arrows (snd (plot_modulus_circle start multiplier modulus iterations direction
                 background_color text_color recursive to_rgb rnd w)) = [].
Proof.
  intros Hm Hi. rewrite plot_modulus_circle_run by assumption.
  destruct (run_colors background_color text_color to_rgb) as [colors|e];
    [|reflexivity].
  assert (∀ p c w1, arrows w1 = [] →
            arrows (snd (plot_path start multiplier modulus iterations direction
                           p c w1)) = []) as Hpath.
  { intros p c w1 H1. unfold plot_path, m_bind, begin_path.
    replace (Z.to_nat iterations) with 0%nat by lia. exact H1. }
  apply (plot_paths_invariant start multiplier modulus iterations direction
           recursive rnd (λ w1, arrows w1 = [])); auto.
Qed.

(** C2, as the specification states it, fails when [iterations] is 0:
    the run returns and has drawn no arrow, so no point is a source. *)
Lemma coverage_fails_without_iterations :
  let r := plot_modulus_circle 1 2 3 0 true "black" "white" true
             mid_gray first_choice (fresh_world 0) in
  fst r = Ok tt ∧ ¬ (∀ p, 1 ≤ p ≤ 3 - 1 → p ∈ sources (snd r)).
Proof.
  split; [vm_compute; reflexivity|].
  intros H. specialize (H 1 ltac:(lia)).
  vm_compute in H. by apply elem_of_nil in H.
Qed.

(** C2 (amended). After [plot_modulus_circle] has returned with
    [recursive=True] and at least one iteration, every point of
    [1 .. modulus - 1] is the source of an arrow; and the paths after
    the first are seeded from points of [1 .. modulus - 1] only, never
    from the point [modulus]. *)
Theorem recursive_coverage
        (start multiplier modulus iterations : Z) (direction : bool)
        (background_color text_color : string)
        (to_rgb : string → option rgb) (rnd : nat → nat) (w : world) :
  let r := plot_modulus_circle start multiplier modulus iterations direction
             background_color text_color true to_rgb rnd w in
  1 ≤ iterations →
  fst r = Ok tt →
  (∀ p, 1 ≤ p ≤ modulus - 1 → p ∈ sources (snd r)) ∧
  (∃ c0 rest, paths (snd r) = (start, c0) :: rest ∧
              Forall (λ sc : Z * string, 1 ≤ sc.1 ≤ modulus - 1) rest).
Proof.
  intros r Hi Hok. subst r.
  destruct (Z.lt_ge_cases modulus 1) as [Hm|Hm].
  { exfalso. destruct (plot_modulus_circle_bad_modulus start multiplier modulus
      iterations direction background_color text_color true to_rgb rnd w Hm)
      as [e He].
    rewrite He in Hok. discriminate. }
  rewrite plot_modulus_circle_run in * by assumption.
  destruct (run_colors background_color text_color to_rgb) as [colors|e];
    [|discriminate].
  set (w0 := fresh_world (draws w)) in *.
  destruct colors as [|c0 colors'] eqn:Ec; [discriminate|]. rewrite <- Ec in *.
  destruct (plot_paths_run start multiplier modulus iterations direction true
              rnd colors w0) as (c & _ & Hrun); [by subst|].
  rewrite Hrun in *. clear Hrun.
  pose proof (plot_path_frame start multiplier modulus iterations direction
                start c (after_draw w0)) as (Hp1 & _ & _ & Hc1 & _).
  destruct (plot_path start multiplier modulus iterations direction start c
              (after_draw w0)) as [[[]|e] w1] eqn:H1; [|discriminate].
  simpl in Hp1, Hc1.
  set (run := for_each (seqZ 1 modulus)
                (plot_unvisited start multiplier modulus iterations direction
                   rnd colors) w1) in *.
  destruct run as [res w'] eqn:Hfor. simpl in Hok. subst res. simpl.
  assert (w' = snd run) as Hw' by (by rewrite Hfor).
  split.
  - intros p Hp.
    assert (covered w') as Hcov.
    { rewrite Hw'. apply unvisited_points_invariant.
      - intros w2 H2. exact H2.
      - intros q cq w2 _ H2.
        by apply (plot_path_frame start multiplier modulus iterations direction
                    q cq w2).
      - apply Hc1. intros q Hq. by apply elem_of_empty in Hq. }
    apply Hcov.
    apply (for_each_unvisited_marks start multiplier modulus iterations direction
             rnd colors (seqZ 1 modulus) Hi w1 w' Hfor); [|lia].
    apply elem_of_seqZ. lia.
  - rewrite Hw'.
    apply (unvisited_points_invariant start multiplier modulus iterations
             direction rnd
             (seeded_from_start start modulus)).
    + intros w2 H2. exact H2.
    + intros q cq w2 Hq H2. by apply seeded_from_start_path.
    + exists c, []. split; [exact Hp1|constructor].
Qed.

Lemma recursive_coverage_witness :
  let r := plot_modulus_circle 2 2 9 18 true "black" "white" true
             mid_gray first_choice (fresh_world 0) in
  (∀ p, 1 ≤ p ≤ 9 - 1 → p ∈ sources (snd r)) ∧
  (∃ c0 rest, paths (snd r) = (2, c0) :: rest ∧
              Forall (λ sc : Z * string, 1 ≤ sc.1 ≤ 9 - 1) rest).
Proof.
  apply (recursive_coverage 2 2 9 18 true "black" "white" mid_gray first_choice
           (fresh_world 0)); [lia|vm_compute; reflexivity].
Defined.

(** The backward step with a multiplier that has a common factor with
    the modulus raises the [ValueError] of [pow], whatever the point. *)
Lemma next_number_backward_raises (multiplier modulus current_number : Z) :
  modulus ≠ 0 → Z.gcd multiplier modulus ≠ 1 →
  next_number multiplier modulus false current_number
  = Raise ValueError_not_invertible.
Proof.
  intros Hm Hg. unfold next_number.
  by rewrite pow_neg1_not_invertible.
Qed.

(** C6. Backward ([direction=False]) with a multiplier that has a
    common factor with the modulus: the recurrence step raises the
    [ValueError] of [pow] (the spec's NoModularInverse); [plot_path],
    which makes a step as soon as there is an iteration, does not catch
    it and has drawn nothing; and [plot_modulus_circle] ends with the
    same exception and an empty canvas, unless setting the colours of
    the figure, building the palette or choosing the first colour has
    already raised. *)
Theorem backward_without_inverse_raises
        (start multiplier modulus iterations : Z)
        (background_color text_color : string) (recursive : bool)
        (to_rgb : string → option rgb) (rnd : nat → nat) :
  1 ≤ modulus → Z.gcd multiplier modulus ≠ 1 →
  1 ≤ iterations →
  (∀ current_number,
     next_number multiplier modulus false current_number
     = Raise ValueError_not_invertible) ∧
  (∀ _start color w,
     let r := plot_path start multiplier modulus iterations false _start color w in
     fst r = Raise ValueError_not_invertible ∧ arrows (snd r) = arrows w) ∧
  (∀ w,
     let r := plot_modulus_circle start multiplier modulus iterations false
                background_color text_color recursive to_rgb rnd w in
     fst r = match run_colors background_color text_color to_rgb with
             | Raise e => Raise e
             | Ok [] => Raise IndexError_choice
             | Ok (_ :: _) => Raise ValueError_not_invertible
             end ∧
     arrows (snd r) = []).
Proof.
  intros Hm Hg Hi.
  assert (∀ current_number,
            next_number multiplier modulus false current_number
            = Raise ValueError_not_invertible) as Hstep.
  { intros cur. apply next_number_backward_raises; [lia|assumption]. }
  split; [exact Hstep|]. split.
  - intros seed color w r. subst r.
    destruct (plot_path_raise start multiplier modulus iterations false seed color w
                ValueError_not_invertible Hi (Hstep seed)) as (H1 & H2 & _).
    auto.
  - intros w r. subst r.
    rewrite plot_modulus_circle_run by assumption.
    destruct (run_colors background_color text_color to_rgb) as [colors|e];
      [|auto].
    destruct colors as [|c0 colors']; [auto|].
    destruct (plot_paths_run start multiplier modulus iterations false recursive
                rnd (c0 :: colors') (fresh_world (draws w)))
      as (c & _ & ->); [discriminate|].
    destruct (plot_path_raise start multiplier modulus iterations false start c
                (after_draw (fresh_world (draws w)))
                ValueError_not_invertible Hi (Hstep start)) as (H1 & H2 & _).
    destruct (plot_path start multiplier modulus iterations false start c
                (after_draw (fresh_world (draws w)))) as [[[]|e] w1];
      simpl in *; [discriminate|]. auto.
Qed.

Lemma backward_without_inverse_raises_witness :
  (∀ current_number,
     next_number 2 8 false current_number = Raise ValueError_not_invertible) ∧
  (∀ _start color w,
     let r := plot_path 2 2 8 18 false _start color w in
     fst r = Raise ValueError_not_invertible ∧ arrows (snd r) = arrows w) ∧
  (∀ w,
     let r := plot_modulus_circle 2 2 8 18 false "black" "white" true
                mid_gray first_choice w in
     fst r = match run_colors "black" "white" mid_gray with
             | Raise e => Raise e
             | Ok [] => Raise IndexError_choice
             | Ok (_ :: _) => Raise ValueError_not_invertible
             end ∧
     arrows (snd r) = []).
Proof.
  apply (backward_without_inverse_raises 2 2 8 18 "black" "white" true
           mid_gray first_choice); [lia|vm_compute; discriminate|lia].
Defined.

(** With the stand-in table the palette is there and the run ends with
    the exception of [pow]. *)
Example backward_run_raises :
  fst (plot_modulus_circle 2 2 8 18 false "black" "white" true
         mid_gray first_choice (fresh_world 0))
  = Raise ValueError_not_invertible.
Proof. vm_compute. reflexivity. Qed.

(** C7, as the specification states it, fails backward with modulus 1:
    [pow(1, -1, 1)] is 0, so the step from point 1 is
    [digital_root(0, 1) = 0] and the arrow drawn goes to point 0. *)
Lemma point_zero_is_produced :
  let r := plot_path 1 1 1 1 false 1 "gray" (fresh_world 0) in
  map (λ a, (from_point a, to_point a)) (arrows (snd r)) = [(1, 0)] ∧
  ¬ points_in_range 1 (snd r).
Proof.
  split; [vm_compute; reflexivity|].
  intros H. apply Forall_inv in H. vm_compute in H.
  destruct H as [_ [H _]]. by apply H.
Qed.

(** Forward, a multiplier of 0 gives point 0 in the same way. *)
Example point_zero_forward :
  map (λ a, (from_point a, to_point a))
      (arrows (snd (plot_path 1 0 9 2 true 1 "gray" (fresh_world 0))))
  = [(1, 0); (0, 0)].
Proof. vm_compute. reflexivity. Qed.

(** C7 (amended). With a start point in [1 .. modulus] and a step
    factor that is not 0 (forward the multiplier is not 0, backward the
    modulus is not 1), every arrow of the run has both its current and
    its next point in [1 .. modulus]; [plot_path] from a seed in that
    range keeps it so; and the step from a point in that range returns
    a point in that range: point 0 is never produced. *)
Theorem points_stay_in_range
        (start multiplier modulus iterations : Z) (direction : bool)
        (background_color text_color : string) (recursive : bool)
        (to_rgb : string → option rgb) (rnd : nat → nat)
        (w w0 : world) (_start : Z) (color : string) (current_number next : Z) :
  1 ≤ start ≤ modulus →
  (direction = true → multiplier ≠ 0) →
  (direction = false → modulus ≠ 1) →
  1 ≤ _start ≤ modulus → points_in_range modulus w0 →
  1 ≤ current_number ≤ modulus →
  next_number multiplier modulus direction current_number = Ok next →
  points_in_range modulus
    (snd (plot_modulus_circle start multiplier modulus iterations direction
            background_color text_color recursive to_rgb rnd w)) ∧
  points_in_range modulus
    (snd (plot_path start multiplier modulus iterations direction _start color w0)) ∧
  1 ≤ next ≤ modulus.
Proof.
  intros Hs Hfwd Hbwd Hseed Hw0 Hc Hn.
  assert (1 ≤ modulus) as Hm by lia.
  assert (factor_nonzero multiplier modulus direction) as Hf.
  { unfold factor_nonzero. destruct direction; auto. }
  split; [|split].
  - rewrite plot_modulus_circle_run by assumption.
    destruct (run_colors background_color text_color to_rgb) as [colors|e];
      [|constructor].
    apply plot_paths_invariant.
    + intros w1 H1. exact H1.
    + intros c w1 H1. by apply plot_path_in_range.
    + intros p c w1 Hp H1. apply plot_path_in_range; [assumption..|lia|assumption].
    + constructor.
  - by apply plot_path_in_range.
  - by apply (next_number_in_range multiplier modulus direction current_number).
Qed.

Lemma points_stay_in_range_witness :
  points_in_range 100
    (snd (plot_modulus_circle 1 7 100 100 true "black" "white" true
            mid_gray first_choice (fresh_world 0))) ∧
  points_in_range 100
    (snd (plot_path 1 7 100 100 true 3 "gray" (fresh_world 0))) ∧
  1 ≤ 43 ≤ 100.
Proof.
  apply (points_stay_in_range 1 7 100 100 true "black" "white" true
           mid_gray first_choice (fresh_world 0) (fresh_world 0) 3 "gray" 49 43);
    [lia|discriminate|discriminate|lia|constructor|lia|reflexivity].
Defined.

(** ** A path does not read the world it is drawn in *)

Section PathUniform.
Variables start multiplier modulus iterations : Z.
Variable direction : bool.

Local Abbreviation loop := (plot_path_loop start multiplier modulus direction).
Local Abbreviation path := (plot_path start multiplier modulus iterations direction).

Lemma world_unchanged (w : world) :
  w = {| arrows := arrows w ++ []; visited := ∅ ∪ visited w;
         paths := paths w; draws := draws w |}.
Proof. destruct w. simpl. by rewrite app_nil_r, (left_id_L ∅ (∪)). Qed.

(** The result of the loop, the arrows it adds and the points it marks
    are the same whatever the world before. *)
Lemma plot_path_loop_uniform (n : nat) :
  ∀ (current_number : Z) (color : string),
  ∃ res es vs, ∀ w,
    loop n current_number color w =
    (res, {| arrows := arrows w ++ es; visited := vs ∪ visited w;
             paths := paths w; draws := draws w |}).
Proof.
  induction n as [|n IH]; intros cur c.
  { exists (Ok tt), [], ∅. intros w. simpl. unfold m_ret.
    by rewrite <- world_unchanged. }
  destruct (next_number multiplier modulus direction cur) as [next|e] eqn:Hs.
  2: { exists (Raise e), [], ∅. intros w.
       by rewrite plot_path_loop_S, Hs, <- world_unchanged. }
  destruct (angles_index modulus (cur - 1)) as [?|e] eqn:Ha.
  2: { exists (Raise e), [], ∅. intros w.
       by rewrite plot_path_loop_S, Hs, Ha, <- world_unchanged. }
  destruct (angles_index modulus (next - 1)) as [?|e] eqn:Hb.
  2: { exists (Raise e), [], ∅. intros w.
       by rewrite plot_path_loop_S, Hs, Ha, Hb, <- world_unchanged. }
  destruct (next =? start) eqn:Hn.
  - exists (Ok tt), [Arrow cur next c], {[ cur ]}. intros w.
    by rewrite plot_path_loop_S, Hs, Ha, Hb, Hn.
  - destruct (IH next c) as (res & es & vs & Hrest).
    exists res, (Arrow cur next c :: es), (vs ∪ {[ cur ]}). intros w.
    rewrite plot_path_loop_S, Hs, Ha, Hb, Hn, Hrest. simpl.
    by rewrite <- app_assoc, (assoc_L (∪)).
Qed.

(** The shape of what the loop draws: at most [n] arrows, each a
    recurrence step from the point the one before reached; no arrow
    but the last reaches [start]; and a loop that returns with fewer
    than [n] arrows has ended on an arrow that reaches [start]. *)
Lemma plot_path_loop_shape (n : nat) :
  ∀ (current_number : Z) (color : string),
  ∃ res es,
    (∀ w, fst (loop n current_number color w) = res ∧
          arrows (snd (loop n current_number color w)) = arrows w ++ es) ∧
    (length es ≤ n)%nat ∧
    Forall (λ a, next_number multiplier modulus direction (from_point a)
                 = Ok (to_point a) ∧ arrow_color a = color) es ∧
    (∀ init a rest, es = init ++ a :: rest → rest ≠ [] → to_point a ≠ start) ∧
    (res = Ok tt → (length es < n)%nat →
     ∃ init a, es = init ++ [a] ∧ to_point a = start).
Proof.
  induction n as [|n IH]; intros cur c.
  { exists (Ok tt), []. split; [|split; [|split; [|split]]].
    - intros w. simpl. by rewrite app_nil_r.
    - simpl. lia.
    - constructor.
    - intros init a rest H. by destruct init.
    - simpl. lia. }
  assert (∀ e, (∀ w, loop (S n) cur c w = (Raise e, w)) →
    ∃ res es,
      (∀ w, fst (loop (S n) cur c w) = res ∧
            arrows (snd (loop (S n) cur c w)) = arrows w ++ es) ∧
      (length es ≤ S n)%nat ∧
      Forall (λ a, next_number multiplier modulus direction (from_point a)
                   = Ok (to_point a) ∧ arrow_color a = c) es ∧
      (∀ init a rest, es = init ++ a :: rest → rest ≠ [] → to_point a ≠ start) ∧
      (res = Ok tt → (length es < S n)%nat →
       ∃ init a, es = init ++ [a] ∧ to_point a = start)) as Hraise.
  { intros e He. exists (Raise e), []. split; [|split; [|split; [|split]]].
    - intros w. rewrite He. simpl. by rewrite app_nil_r.
    - simpl. lia.
    - constructor.
    - intros init a rest H. by destruct init.
    - discriminate. }
  destruct (next_number multiplier modulus direction cur) as [next|e] eqn:Hs.
  2: { apply (Hraise e). intros w. by rewrite plot_path_loop_S, Hs. }
  destruct (angles_index modulus (cur - 1)) as [i1|e] eqn:Ha.
  2: { apply (Hraise e). intros w. by rewrite plot_path_loop_S, Hs, Ha. }
  destruct (angles_index modulus (next - 1)) as [i2|e] eqn:Hb.
  2: { apply (Hraise e). intros w. by rewrite plot_path_loop_S, Hs, Ha, Hb. }
  clear Hraise. destruct (Z.eqb_spec next start) as [Hn|Hn].
  - exists (Ok tt), [Arrow cur next c]. split; [|split; [|split; [|split]]].
    + intros w. rewrite plot_path_loop_S, Hs, Ha, Hb.
      destruct (Z.eqb_spec next start); [done|contradiction].
    + simpl. lia.
    + by repeat constructor.
    + intros init a rest H Hrest. exfalso.
      apply (f_equal length) in H. rewrite length_app in H. simpl in H.
      destruct rest; [done|]. simpl in H. lia.
    + intros _ _. by exists [], (Arrow cur next c).
  - destruct (IH next c) as (res & es & Hrun & Hlen & Hsteps & Hinner & Hlast).
    exists res, (Arrow cur next c :: es). split; [|split; [|split; [|split]]].
    + intros w. rewrite plot_path_loop_S, Hs, Ha, Hb.
      destruct (Z.eqb_spec next start); [contradiction|].
      destruct (Hrun (after_round cur next c w)) as [-> ->]. simpl.
      by rewrite <- app_assoc.
    + simpl. lia.
    + by repeat constructor.
    + intros init a rest H Hrest. destruct init as [|b init]; simpl in H.
      * injection H as <- _. exact Hn.
      * injection H as _ H. by apply (Hinner init a rest).
    + intros Hres Hlt. simpl in Hlt.
      destruct (Hlast Hres ltac:(lia)) as (init & a & -> & Hto).
      by exists (Arrow cur next c :: init), a.
Qed.

(** So a path can be read off a run on an empty canvas. *)
Lemma plot_path_on_fresh_world (_start : Z) (color : string) (w : world) :
  fst (path _start color w) = fst (path _start color (fresh_world 0)) ∧
  arrows (snd (path _start color w))
  = arrows w ++ arrows (snd (path _start color (fresh_world 0))).
Proof.
  unfold plot_path, m_bind, begin_path.
  destruct (plot_path_loop_uniform (Z.to_nat iterations) _start color)
    as (res & es & vs & H).
  rewrite !H. simpl. auto.
Qed.
End PathUniform.

(** C3. [plot_path] from 1 with [start=1], [multiplier=7],
    [modulus=100], [iterations=100], forward: it returns, and the
    arrows it adds are 1 → 7 → 49 → 43 → 1.  Each goes from a point to
    [digital_root(point * 7, 100)]; there are fewer than 100 of them
    and the sequence ends at the first arrow that comes back to 1. *)
Theorem path_of_the_main_call (color : string) (w : world) :
  let r := plot_path 1 7 100 100 true 1 color w in
  fst r = Ok tt ∧
  ∃ es,
    arrows (snd r) = arrows w ++ es ∧
    edges es = [(1, 7); (7, 49); (49, 43); (43, 1)] ∧
    Forall (λ a, digital_root (from_point a * 7) 100 = Ok (to_point a)) es ∧
    (length es = 100%nat ∨
     ∃ init final, es = init ++ [final] ∧ to_point final = 1 ∧
                   Forall (λ a, to_point a ≠ 1) init).
Proof.
  cbv zeta.
  destruct (plot_path_on_fresh_world 1 7 100 100 true 1 color w) as [-> ->].
  split; [vm_compute; reflexivity|].
  exists [Arrow 1 7 color; Arrow 7 49 color; Arrow 49 43 color; Arrow 43 1 color].
  split; [f_equal; vm_compute; reflexivity|].
  split; [reflexivity|].
  split; [repeat constructor|].
  right. exists [Arrow 1 7 color; Arrow 7 49 color; Arrow 49 43 color], (Arrow 43 1 color).
  split; [reflexivity|]. split; [reflexivity|].
  repeat constructor; simpl; lia.
Qed.

(** C1: the code departs from the specification.  The test of line 161 compares
    with [start], the argument of [plot_modulus_circle], and not with
    the origin [_start] of the path.  With the default arguments
    ([start=2], [multiplier=2], [modulus=9], [iterations=18]) the
    recursive path seeded from 3 comes back to 3 at its second arrow
    and goes on to the end of its 18 iterations; with [modulus=8] the
    path seeded from 1 stops at its first arrow, which reaches 2 and
    not its origin 1. *)
Theorem recursive_path_tests_outer_start (color : string) (w : world) :
  (let r := plot_path 2 2 9 18 true 3 color w in
   fst r = Ok tt ∧
   ∃ es, arrows (snd r) = arrows w ++ es ∧
         edges es = concat (replicate 9 [(3, 6); (6, 3)]) ∧
         length es = 18%nat) ∧
  (let r := plot_path 2 2 8 18 true 1 color w in
   fst r = Ok tt ∧ arrows (snd r) = arrows w ++ [Arrow 1 2 color]).
Proof.
  cbv zeta. split.
  - destruct (plot_path_on_fresh_world 2 2 9 18 true 3 color w) as [-> ->].
    split; [vm_compute; reflexivity|].
    eexists. split; [reflexivity|]. split; vm_compute; reflexivity.
  - destruct (plot_path_on_fresh_world 2 2 8 18 true 1 color w) as [-> ->].
    split; [vm_compute; reflexivity|].
    f_equal; vm_compute; reflexivity.
Qed.

(** The default call [plot_modulus_circle()] does make that recursive
    call: its paths are seeded from 2 and from 3, six arrows for the
    first and eighteen for the second. *)
Example default_run :
  let r := plot_modulus_circle 2 2 9 18 true "black" "white" true
             mid_gray first_choice (fresh_world 0) in
  fst r = Ok tt ∧
  map fst (paths (snd r)) = [2; 3] ∧
  edges (arrows (snd r))
  = [(2, 4); (4, 8); (8, 7); (7, 5); (5, 1); (1, 2)]
    ++ concat (replicate 9 [(3, 6); (6, 3)]).
Proof. vm_compute. auto. Qed.

(** ** The colours *)

Section ColorFacts.
Variable to_rgb : string → option rgb.

(** The loop keeps what it has accumulated and appends, in the order
    of the input, the names that pass the test of line 34. *)
Lemma filter_colors_loop_spec (low high : float) (color_list : list string) :
  ∀ filtered_colors out,
    filter_colors_loop to_rgb color_list filtered_colors low high = Ok out →
    out = filtered_colors ++ List.filter (retained to_rgb low high) color_list.
Proof.
  induction color_list as [|c l IH]; intros acc out; simpl.
  { intros [= <-]. by rewrite app_nil_r. }
  unfold retained at 1.
  destruct (to_rgb c) as [v|]; [|discriminate].
  destruct (in_band low high (luminance v)); intros H; apply IH in H.
  - by rewrite <- app_assoc in H.
  - exact H.
Qed.

(** The loop returns when every name resolves to a colour. *)
Lemma filter_colors_loop_returns (low high : float) (color_list : list string) :
  Forall (λ c, is_Some (to_rgb c)) color_list →
  ∀ filtered_colors,
    ∃ out, filter_colors_loop to_rgb color_list filtered_colors low high = Ok out.
Proof.
  induction 1 as [|c l [v Hv] _ IH]; intros acc; simpl; [by eexists|].
  rewrite Hv. destruct (in_band low high (luminance v)); apply IH.
Qed.

Lemma retained_spec (low high : float) (c : string) :
  retained to_rgb low high c = true ↔
  ∃ v, to_rgb c = Some v ∧
       (low <=? luminance v)%float = true ∧ (luminance v <=? high)%float = true.
Proof.
  unfold retained, in_band. destruct (to_rgb c) as [v|].
  - rewrite andb_true_iff. split.
    + intros H. by exists v.
    + intros (v' & [= <-] & H). exact H.
  - split; [discriminate|]. intros (v & Hv & _). discriminate.
Qed.
End ColorFacts.

Lemma filter_sublist {A : Type} (f : A → bool) (l : list A) :
  sublist (List.filter f l) l.
Proof.
  induction l as [|x l IH]; simpl; [constructor|].
  destruct (f x); by constructor.
Qed.

(** Facts about [list.remove]. *)
Lemma list_remove_absent (x : string) (l : list string) :
  x ∉ l → list_remove x l = Raise ValueError_remove.
Proof.
  induction l as [|y l IH]; intros Hx; simpl; [reflexivity|].
  apply not_elem_of_cons in Hx as [Hne Hx].
  destruct (decide (y = x)); [congruence|].
  by rewrite IH.
Qed.

Lemma list_remove_present (x : string) (l : list string) :
  x ∈ l → ∃ l', list_remove x l = Ok l'.
Proof.
  induction l as [|y l IH]; intros Hx; simpl.
  { by apply elem_of_nil in Hx. }
  destruct (decide (y = x)); [by eexists|].
  apply elem_of_cons in Hx as [->|Hx]; [contradiction|].
  destruct (IH Hx) as [l' ->]. by eexists.
Qed.

(** What is left after a removal is a sublist; when the list has no
    duplicate, the removed name is gone from it. *)
Lemma list_remove_Ok (x : string) (l l' : list string) :
  list_remove x l = Ok l' →
  sublist l' l ∧ (NoDup l → x ∉ l').
Proof.
  revert l'. induction l as [|y l IH]; intros l'; simpl; [discriminate|].
  destruct (decide (y = x)) as [->|Hne].
  - intros [= <-]. split; [by constructor|].
    intros Hnd. by apply NoDup_cons in Hnd as [? _].
  - destruct (list_remove x l) as [r|e]; [|discriminate].
    intros [= <-]. destruct (IH r eq_refl) as [Hsub Hnot].
    split; [by constructor|].
    intros Hnd. apply NoDup_cons in Hnd as [_ Hnd].
    apply not_elem_of_cons. split; [congruence|auto].
Qed.

Lemma named_colors_NoDup : NoDup named_colors.
Proof. apply (bool_decide_unpack _). vm_compute. reflexivity. Qed.

Lemma named_colors_length : length named_colors = 147%nat.
Proof. reflexivity. Qed.

(** The test of line 34 written out on the three channels. *)
Lemma retained_channels (to_rgb : string → option rgb) (low high : float)
      (c : string) :
  retained to_rgb low high c
  = match to_rgb c with
    | Some (r, g, b) =>
        ((low <=? 0.2126 * r + 0.7152 * g + 0.0722 * b)
         && (0.2126 * r + 0.7152 * g + 0.0722 * b <=? high))%float
    | None => false
    end.
Proof.
  unfold retained. by destruct (to_rgb c) as [[[r g] b]|].
Qed.

(** C9. On a list of names that all resolve to a colour,
    [filter_colors] returns.  Its result is the input with exactly the
    names kept whose channels [(R, G, B)] have
    [low <= 0.2126*R + 0.7152*G + 0.0722*B <= high], in the order of
    the input.  It has no effect besides: it reads its argument, which
    is left as it was, and called in any state of the canvas, of the
    visited set and of the random source it leaves that state
    unchanged.  With the default thresholds every name of the result
    has [0.3 <= 0.2126*R + 0.7152*G + 0.0722*B <= 0.7]. *)
Theorem filter_colors_spec
        (to_rgb : string → option rgb) (color_list : list string)
        (low high : float) :
  Forall (λ c, is_Some (to_rgb c)) color_list →
  (∃ out,
     filter_colors to_rgb color_list low high = Ok out ∧
     out = List.filter
             (λ c, match to_rgb c with
                   | Some (r, g, b) =>
                       ((low <=? 0.2126 * r + 0.7152 * g + 0.0722 * b)
                        && (0.2126 * r + 0.7152 * g + 0.0722 * b <=? high))%float
                   | None => false
                   end) color_list ∧
     sublist out color_list ∧
     (∀ c, c ∈ out ↔
           c ∈ color_list ∧
           ∃ r g b, to_rgb c = Some (r, g, b) ∧
                    (low <=? 0.2126 * r + 0.7152 * g + 0.0722 * b)%float = true ∧
                    (0.2126 * r + 0.7152 * g + 0.0722 * b <=? high)%float = true) ∧
     ∀ w : world,
       lift (filter_colors to_rgb color_list low high) w = (Ok out, w)) ∧
  (∃ out,
     filter_colors to_rgb color_list default_low default_high = Ok out ∧
     Forall (λ c, ∃ r g b,
                to_rgb c = Some (r, g, b) ∧
                (0.3 <=? 0.2126 * r + 0.7152 * g + 0.0722 * b)%float = true ∧
                (0.2126 * r + 0.7152 * g + 0.0722 * b <=? 0.7)%float = true) out).
Proof.
  intros Hall.
  assert (∀ lo hi, ∃ out,
            filter_colors to_rgb color_list lo hi = Ok out ∧
            out = List.filter (retained to_rgb lo hi) color_list ∧
            ∀ c, c ∈ out ↔
                 c ∈ color_list ∧
                 ∃ r g b, to_rgb c = Some (r, g, b) ∧
                          (lo <=? 0.2126 * r + 0.7152 * g + 0.0722 * b)%float = true ∧
                          (0.2126 * r + 0.7152 * g + 0.0722 * b <=? hi)%float = true)
    as Hgen.
  { intros lo hi.
    destruct (filter_colors_loop_returns to_rgb lo hi color_list Hall [])
      as [out Hout].
    exists out. split; [exact Hout|].
    apply filter_colors_loop_spec in Hout. simpl in Hout. subst out.
    split; [reflexivity|].
    intros c. rewrite list_elem_of_In, filter_In, <- list_elem_of_In.
    rewrite retained_channels.
    destruct (to_rgb c) as [[[r g] b]|].
    - rewrite andb_true_iff. split.
      + intros [Hc Hband]. split; [exact Hc|]. by exists r, g, b.
      + intros [Hc (r' & g' & b' & [= <- <- <-] & Hband)]. by split.
    - split; [intros [_ ?]; discriminate|].
      intros [_ (r & g & b & ? & _)]. discriminate. }
  split.
  - destruct (Hgen low high) as (out & Hout & Hfilter & Hmem).
    exists out. split; [exact Hout|]. split.
    { rewrite Hfilter. apply filter_ext. intros c. apply retained_channels. }
    split; [rewrite Hfilter; apply filter_sublist|].
    split; [exact Hmem|].
    intros w. unfold lift. by rewrite Hout.
  - destruct (Hgen default_low default_high) as (out & Hout & _ & Hmem).
    exists out. split; [exact Hout|].
    apply Forall_forall. intros c Hc. by apply Hmem in Hc as [_ Hc].
Qed.

Lemma filter_colors_spec_witness :
  (∃ out,
     filter_colors css_samples ["red"; "green"; "lime"; "orange"; "blue"]
       0.25 0.5 = Ok out ∧
     out = List.filter
             (λ c, match css_samples c with
                   | Some (r, g, b) =>
                       ((0.25 <=? 0.2126 * r + 0.7152 * g + 0.0722 * b)
                        && (0.2126 * r + 0.7152 * g + 0.0722 * b <=? 0.5))%float
                   | None => false
                   end) ["red"; "green"; "lime"; "orange"; "blue"] ∧
     sublist out ["red"; "green"; "lime"; "orange"; "blue"] ∧
     (∀ c, c ∈ out ↔
           c ∈ ["red"; "green"; "lime"; "orange"; "blue"] ∧
           ∃ r g b, css_samples c = Some (r, g, b) ∧
                    (0.25 <=? 0.2126 * r + 0.7152 * g + 0.0722 * b)%float = true ∧
                    (0.2126 * r + 0.7152 * g + 0.0722 * b <=? 0.5)%float = true) ∧
     ∀ w : world,
       lift (filter_colors css_samples
               ["red"; "green"; "lime"; "orange"; "blue"] 0.25 0.5) w
       = (Ok out, w)) ∧
  (∃ out,
     filter_colors css_samples ["red"; "green"; "lime"; "orange"; "blue"]
       default_low default_high = Ok out ∧
     Forall (λ c, ∃ r g b,
                css_samples c = Some (r, g, b) ∧
                (0.3 <=? 0.2126 * r + 0.7152 * g + 0.0722 * b)%float = true ∧
                (0.2126 * r + 0.7152 * g + 0.0722 * b <=? 0.7)%float = true) out).
Proof.
  apply (filter_colors_spec css_samples
           ["red"; "green"; "lime"; "orange"; "blue"] 0.25%float 0.5%float).
  repeat constructor; vm_compute; by eexists.
Defined.

(** Pure red, green and blue have the luminances 0.2126, 0.7152 and
    0.0722 and fall outside the default band; green and orange are
    inside it, and green alone is below 0.5. *)
Example filter_colors_css_samples :
  filter_colors css_samples ["red"; "green"; "lime"; "orange"; "blue"]
    default_low default_high = Ok ["green"; "orange"] ∧
  filter_colors css_samples ["red"; "green"; "lime"; "orange"; "blue"]
    0.25 0.5 = Ok ["green"] ∧
  filter_colors css_samples ["blue"; "lime"; "red"] 0.0722 0.7152
  = Ok ["blue"; "lime"; "red"] ∧
  filter_colors css_samples ["blue"; "lime"; "red"] 0.1 0.7
  = Ok ["red"].
Proof. vm_compute. repeat split. Qed.

Example filter_colors_three_grays :
  filter_colors three_grays ["white"; "gray"; "black"; "gray"]
    default_low default_high = Ok ["gray"; "gray"].
Proof. vm_compute. reflexivity. Qed.

Lemma list_remove_keeps (x y : string) (l l' : list string) :
  list_remove x l = Ok l' → y ∈ l → y ≠ x → y ∈ l'.
Proof.
  revert l'. induction l as [|z l IH]; intros l'; simpl; [discriminate|].
  destruct (decide (z = x)) as [->|Hne].
  - intros [= <-] Hy Hyx. apply elem_of_cons in Hy as [?|?]; [contradiction|done].
  - destruct (list_remove x l) as [r|e]; [|discriminate].
    intros [= <-] Hy Hyx. apply elem_of_cons in Hy as [->|Hy]; [by left|].
    right. by apply IH.
Qed.

(** The palette is there when the two colours are two different names
    of the list and matplotlib resolves every name of the list. *)
Lemma palette_returns
      (background_color text_color : string) (to_rgb : string → option rgb) :
  background_color ∈ named_colors → text_color ∈ named_colors →
  background_color ≠ text_color →
  Forall (λ c, is_Some (to_rgb c)) named_colors →
  ∃ colors, palette background_color text_color to_rgb = Ok colors.
Proof.
  intros Hbg Hfg Hne Hall. unfold palette.
  destruct (list_remove_present _ _ Hbg) as [colors1 H1]. rewrite H1. simpl.
  assert (text_color ∈ colors1) as Hfg1
    by (eapply list_remove_keeps; [exact H1|exact Hfg|congruence]).
  destruct (list_remove_present _ _ Hfg1) as [colors2 H2]. rewrite H2. simpl.
  apply filter_colors_loop_returns.
  apply list_remove_Ok in H1 as [Hsub1 _].
  apply list_remove_Ok in H2 as [Hsub2 _].
  apply Forall_forall. intros c Hc.
  apply (proj1 (Forall_forall _ _) Hall).
  eapply elem_of_sublist; [|exact Hsub1].
  eapply elem_of_sublist; [exact Hc|exact Hsub2].
Qed.

(** C8. When the palette of lines 139-142 is there, neither the
    background colour nor the text colour is one of its names. *)
Theorem palette_excludes_background_and_text
        (background_color text_color : string)
        (to_rgb : string → option rgb) (colors : list string) :
  palette background_color text_color to_rgb = Ok colors →
  (background_color ∉ colors) ∧ (text_color ∉ colors).
Proof.
  unfold palette.
  destruct (list_remove background_color named_colors) as [colors1|] eqn:H1;
    [|discriminate].
  simpl.
  destruct (list_remove text_color colors1) as [colors2|] eqn:H2;
    [|discriminate].
  simpl. intros H3.
  apply filter_colors_loop_spec in H3. simpl in H3.
  apply list_remove_Ok in H1 as [Hsub1 Hbg].
  apply list_remove_Ok in H2 as [Hsub2 Hfg].
  specialize (Hbg named_colors_NoDup).
  assert (NoDup colors1) as Hnd1
    by (eapply sublist_NoDup; [apply named_colors_NoDup|exact Hsub1]).
  specialize (Hfg Hnd1).
  assert (sublist colors colors2) as Hsub3
    by (subst colors; apply filter_sublist).
  split; intros Hin.
  - apply Hbg. eapply elem_of_sublist; [|exact Hsub2].
    eapply elem_of_sublist; [exact Hin|exact Hsub3].
  - apply Hfg. eapply elem_of_sublist; [exact Hin|exact Hsub3].
Qed.

Lemma palette_excludes_background_and_text_witness :
  ("black" ∉ match palette "black" "white" mid_gray with
             | Ok colors => colors
             | Raise _ => []
             end) ∧
  ("white" ∉ match palette "black" "white" mid_gray with
             | Ok colors => colors
             | Raise _ => []
             end).
Proof.
  apply (palette_excludes_background_and_text "black" "white" mid_gray).
  vm_compute. reflexivity.
Defined.








(** * Further properties of the code *)

(** ** The digital root beyond the points *)

(** Two non-zero numbers that differ by a multiple of the modulus have
    the same digital root. *)
Lemma digital_root_congruent (a b mod_ : Z) :
  a ≠ 0 → b ≠ 0 → 1 ≤ mod_ → (mod_ | a - b) →
  digital_root a mod_ = digital_root b mod_.
Proof.
  intros Ha Hb Hm Hd.
  rewrite (digital_root_nonzero a), (digital_root_nonzero b) by lia.
  f_equal. apply (point_unique mod_).
  - pose proof (Z.mod_pos_bound (a - 1) mod_). lia.
  - pose proof (Z.mod_pos_bound (b - 1) mod_). lia.
  - replace ((a - 1) mod mod_ + 1 - ((b - 1) mod mod_ + 1))
      with ((a - b) - mod_ * ((a - 1) / mod_) + mod_ * ((b - 1) / mod_))
      by (rewrite !Z.mod_eq by lia; ring).
    apply Z.divide_add_r; [apply Z.divide_sub_r; [assumption|]|];
      apply Z.divide_mul_l, Z.divide_refl.
Qed.

(** X1. For every non-zero [n], negative ones too, and [mod >= 1],
    [digital_root(n, mod)] returns the point of [1 .. mod] that differs
    from [n] by a multiple of [mod]. *)
Theorem digital_root_any_sign (n mod_ : Z) :
  n ≠ 0 → 1 ≤ mod_ →
  ∃ r, digital_root n mod_ = Ok r ∧ 1 ≤ r ≤ mod_ ∧ (mod_ | r - n) ∧
       ∀ r', 1 ≤ r' ≤ mod_ → (mod_ | r' - n) → r' = r.
Proof.
  intros Hn Hm. exists ((n - 1) mod mod_ + 1).
  assert (digital_root n mod_ = Ok ((n - 1) mod mod_ + 1)) as H
    by (apply digital_root_nonzero; lia).
  pose proof (digital_root_in_range _ _ _ Hn Hm H) as Hr.
  pose proof (digital_root_congr _ _ _ Hn Hm H) as Hc.
  repeat split; [exact H|lia|lia|exact Hc|].
  intros r' Hr' Hc'. apply (point_unique mod_); [assumption..|].
  replace (r' - ((n - 1) mod mod_ + 1))
    with ((r' - n) - ((n - 1) mod mod_ + 1 - n)) by ring.
  by apply Z.divide_sub_r.
Qed.

Lemma digital_root_any_sign_witness :
  ∃ r, digital_root (-14) 9 = Ok r ∧ 1 ≤ r ≤ 9 ∧ (9 | r - -14) ∧
       ∀ r', 1 ≤ r' ≤ 9 → (9 | r' - -14) → r' = r.
Proof. apply (digital_root_any_sign (-14) 9); lia. Defined.

(** X2. [digital_root] leaves the points of [1 .. mod] as they are, so
    taking it a second time changes nothing. *)
Theorem digital_root_fixes_points (n p mod_ r : Z) :
  1 ≤ p ≤ mod_ →
  n ≠ 0 → 1 ≤ mod_ → digital_root n mod_ = Ok r →
  digital_root p mod_ = Ok p ∧ digital_root r mod_ = Ok r.
Proof.
  intros Hp Hn Hm Hr.
  assert (∀ q, 1 ≤ q ≤ mod_ → digital_root q mod_ = Ok q) as Hfix.
  { intros q Hq. rewrite digital_root_nonzero by lia.
    rewrite Z.mod_small by lia. f_equal. lia. }
  split; [by apply Hfix|].
  apply Hfix. by apply (digital_root_in_range n).
Qed.

Lemma digital_root_fixes_points_witness :
  digital_root 5 9 = Ok 5 ∧ digital_root 3 9 = Ok 3.
Proof.
  apply (digital_root_fixes_points 12 5 9 3); [lia|lia|lia|reflexivity].
Defined.

(** X3. Against the plain remainder: for a non-zero [n] and
    [mod >= 1], [digital_root(n, mod)] is [n % mod], except that a
    multiple of [mod] gives [mod] where [%] gives 0. *)
Theorem digital_root_vs_remainder (n mod_ : Z) :
  n ≠ 0 → 1 ≤ mod_ →
  digital_root n mod_ = Ok (if n mod mod_ =? 0 then mod_ else n mod mod_).
Proof.
  intros Hn Hm. rewrite digital_root_nonzero by lia. f_equal.
  pose proof (Z.mod_pos_bound n mod_ ltac:(lia)) as Hb.
  pose proof (Z.mod_pos_bound (n - 1) mod_ ltac:(lia)) as Hb1.
  apply (point_unique mod_); [lia| |].
  - destruct (Z.eqb_spec (n mod mod_) 0); lia.
  - destruct (Z.eqb_spec (n mod mod_) 0) as [E|E].
    + exists (- ((n - 1) / mod_) + n / mod_ - 1).
      pose proof (Z.div_mod (n - 1) mod_). pose proof (Z.div_mod n mod_). lia.
    + exists (- ((n - 1) / mod_) + n / mod_).
      pose proof (Z.div_mod (n - 1) mod_). pose proof (Z.div_mod n mod_). lia.
Qed.

Lemma digital_root_vs_remainder_witness :
  digital_root 27 9 = Ok (if 27 mod 9 =? 0 then 9 else 27 mod 9).
Proof. apply (digital_root_vs_remainder 27 9); lia. Defined.

(** ** The decimal digital root *)

Lemma digit_sum_upto_spec (rounds : nat) :
  ∀ n, 0 ≤ n ≤ Z.of_nat rounds →
       let s := digit_sum_upto rounds n in
       (9 | n - s) ∧ s ≤ n ∧ (1 ≤ n → 1 ≤ s) ∧ (10 ≤ n → s < n).
Proof.
  induction rounds as [|k IH]; intros n Hn; cbv zeta.
  { assert (n = 0) as -> by lia. simpl. repeat split; try lia. exists 0. lia. }
  cbn [digit_sum_upto]. destruct (Z.ltb_spec n 10) as [Hlt|Hge].
  { repeat split; try lia. exists 0. lia. }
  pose proof (Z.div_mod n 10 ltac:(lia)) as Hdm.
  pose proof (Z.mod_pos_bound n 10 ltac:(lia)) as Hmod.
  destruct (IH (n / 10)) as (Hd & Hle & Hpos & _); [lia|].
  repeat split; try lia.
  destruct Hd as [q Hq]. exists (n / 10 + q). lia.
Qed.

Lemma digit_sum_spec (n : Z) :
  1 ≤ n → (9 | n - digit_sum n) ∧ 1 ≤ digit_sum n ≤ n ∧ (10 ≤ n → digit_sum n < n).
Proof.
  intros Hn. destruct (digit_sum_upto_spec (Z.to_nat n) n) as (? & ? & ? & ?); [lia|].
  unfold digit_sum. auto with lia.
Qed.

Lemma additive_root_upto_spec (rounds : nat) :
  ∀ n, 1 ≤ n ≤ Z.of_nat rounds →
       1 ≤ additive_root_upto rounds n ≤ 9 ∧ (9 | n - additive_root_upto rounds n).
Proof.
  induction rounds as [|k IH]; intros n Hn; [lia|].
  cbn [additive_root_upto]. destruct (Z.ltb_spec n 10) as [Hlt|Hge].
  { split; [lia|]. exists 0. lia. }
  destruct (digit_sum_spec n) as (Hd & Hb & Hlt); [lia|].
  destruct (IH (digit_sum n)) as [Hr Hc]; [lia|].
  split; [exact Hr|].
  replace (n - additive_root_upto k (digit_sum n))
    with ((n - digit_sum n) + (digit_sum n - additive_root_upto k (digit_sum n)))
    by ring.
  by apply Z.divide_add_r.
Qed.

(** X4. With its default modulus 9, [digital_root(n)] of a positive
    [n] is the digital root of the docstring: the sum of the decimal
    digits of [n], summed again until a single digit is left. *)
Theorem digital_root_is_digit_sum (n : Z) :
  1 ≤ n → digital_root n 9 = Ok (additive_root n).
Proof.
  intros Hn. rewrite digital_root_nonzero by lia. f_equal.
  destruct (additive_root_upto_spec (Z.to_nat n) n) as [Hr Hc]; [lia|].
  fold (additive_root n) in Hr, Hc.
  pose proof (Z.mod_pos_bound (n - 1) 9 ltac:(lia)).
  apply (point_unique 9); [lia|lia|].
  replace ((n - 1) mod 9 + 1 - additive_root n)
    with ((n - additive_root n) - 9 * ((n - 1) / 9))
    by (rewrite Z.mod_eq by lia; ring).
  apply Z.divide_sub_r; [exact Hc|]. apply Z.divide_mul_l, Z.divide_refl.
Qed.

Lemma digital_root_is_digit_sum_witness :
  digital_root 493193 9 = Ok (additive_root 493193).
Proof. apply (digital_root_is_digit_sum 493193). lia. Defined.

Example additive_root_493193 :
  digit_sum 493193 = 29 ∧ digit_sum 29 = 11 ∧ additive_root 493193 = 2.
Proof. vm_compute. auto. Qed.


(** ** The effect of a path *)

Lemma end_point_cons (p : Z) (a : arrow) (es : list arrow) :
  end_point p (a :: es) = end_point (to_point a) es.
Proof.
  destruct es as [|b es]; [reflexivity|]. unfold end_point.
  change (last (a :: b :: es)) with (last (b :: es)).
  destruct (last (b :: es)) eqn:E; [reflexivity|].
  by apply last_None in E.
Qed.

Lemma angles_index_cases (modulus p : Z) :
  (index_accepted modulus p ∧ ∃ i, angles_index modulus (p - 1) = Ok i) ∨
  (¬ index_accepted modulus p ∧
   angles_index modulus (p - 1) = Raise IndexError_angles).
Proof.
  unfold index_accepted, angles_index.
  destruct (Z.leb_spec 0 (p - 1)), (Z.ltb_spec (p - 1) modulus),
    (Z.leb_spec (- modulus) (p - 1)), (Z.ltb_spec (p - 1) 0); simpl;
    first [ left; split; [lia|by eexists] | right; split; [lia|reflexivity] ].
Qed.

Lemma after_arrows_nil (w : world) : after_arrows [] w = w.
Proof.
  destruct w. unfold after_arrows. simpl.
  by rewrite app_nil_r, (left_id_L ∅ (∪)).
Qed.

Lemma after_arrows_cons (cur next : Z) (c : string) (es : list arrow) (w : world) :
  after_arrows es (after_round cur next c w)
  = after_arrows (Arrow cur next c :: es) w.
Proof.
  unfold after_arrows, after_round. simpl. f_equal.
  - by rewrite <- app_assoc.
  - set_solver.
Qed.

Ltac split_outcome :=
  unfold loop_outcome; split; [|split; [|split; [|split; [|split; [|split]]]]].

Section PathEffect.
Variables start multiplier modulus iterations : Z.
Variable direction : bool.

Local Abbreviation step := (next_number multiplier modulus direction).
Local Abbreviation loop := (plot_path_loop start multiplier modulus direction).
Local Abbreviation path := (plot_path start multiplier modulus iterations direction).
Local Abbreviation outcome := (loop_outcome start multiplier modulus direction).

(** A loop that stops at once, on an exception. *)
Lemma loop_outcome_raise (n : nat) (cur : Z) (c : string) (e : exn) :
  step cur = Raise e ∨
  (e = IndexError_angles ∧
   ∃ next, step cur = Ok next ∧
           (¬ index_accepted modulus cur ∨ ¬ index_accepted modulus next)) →
  outcome n cur c (Raise e) [].
Proof.
  intros H. split_outcome.
  - simpl. lia.
  - exact I.
  - constructor.
  - intros init a rest Hes. by destruct init.
  - discriminate.
  - discriminate.
  - intros e' [= <-]. exact H.
Qed.

Lemma plot_path_loop_effect (n : nat) :
  ∀ (cur : Z) (c : string),
  ∃ res es,
    (∀ w, loop n cur c w = (res, after_arrows es w)) ∧ outcome n cur c res es.
Proof.
  induction n as [|n IH]; intros cur c.
  { exists (Ok tt), []. split.
    - intros w. by rewrite after_arrows_nil.
    - split_outcome.
      + simpl. lia.
      + exact I.
      + constructor.
      + intros init a rest Hes. by destruct init.
      + simpl. lia.
      + reflexivity.
      + discriminate. }
  destruct (step cur) as [next|e] eqn:Hs.
  2: { exists (Raise e), []. split.
       - intros w. by rewrite plot_path_loop_S, Hs, after_arrows_nil.
       - apply loop_outcome_raise. by left. }
  destruct (angles_index_cases modulus cur) as [[Hc [i1 Ha]]|[Hc Ha]].
  2: { exists (Raise IndexError_angles), []. split.
       - intros w. by rewrite plot_path_loop_S, Hs, Ha, after_arrows_nil.
       - apply loop_outcome_raise. right. split; [done|]. exists next. auto. }
  destruct (angles_index_cases modulus next) as [[Hn [i2 Hb]]|[Hn Hb]].
  2: { exists (Raise IndexError_angles), []. split.
       - intros w. by rewrite plot_path_loop_S, Hs, Ha, Hb, after_arrows_nil.
       - apply loop_outcome_raise. right. split; [done|]. exists next. auto. }
  destruct (Z.eqb_spec next start) as [Heq|Hne].
  - exists (Ok tt), [Arrow cur next c]. split.
    + intros w. rewrite plot_path_loop_S, Hs, Ha, Hb.
      destruct (Z.eqb_spec next start); [|contradiction].
      by rewrite <- after_arrows_cons, after_arrows_nil.
    + split_outcome.
      * simpl. lia.
      * done.
      * constructor; [done|constructor].
      * intros init a rest Hes Hrest. exfalso.
        apply (f_equal length) in Hes. rewrite length_app in Hes. simpl in Hes.
        destruct rest; [done|]. simpl in Hes. lia.
      * done.
      * intros _ [H|H]; [|done]. by unfold end_point in H.
      * discriminate.
  - destruct (IH next c) as (res & es & Hrun & Hlen & Hchain & Hall & Hinner
                             & Hearly & Hfull & Hraise).
    exists res, (Arrow cur next c :: es). split.
    + intros w. rewrite plot_path_loop_S, Hs, Ha, Hb.
      destruct (Z.eqb_spec next start); [contradiction|].
      by rewrite Hrun, after_arrows_cons.
    + split_outcome.
      * simpl. lia.
      * done.
      * constructor; [done|exact Hall].
      * intros init a rest Hes Hrest. destruct init as [|b init]; simpl in Hes.
        -- injection Hes as <- _. exact Hne.
        -- injection Hes as _ Hes. by apply (Hinner init a rest).
      * intros Hres Hlt. split; [done|]. rewrite end_point_cons. simpl.
        apply Hearly; [done|simpl in Hlt; lia].
      * intros Hres H. rewrite end_point_cons in H. simpl in H. simpl.
        f_equal. apply Hfull; [done|].
        destruct H as [H|H]; [by left|done].
      * intros e He. rewrite end_point_cons. simpl. by apply Hraise.
Qed.

(** The same for [plot_path], which first enters the path in the
    trace. *)
Lemma plot_path_effect (_start : Z) (c : string) :
  ∃ res es,
    (∀ w, path _start c w = (res, after_arrows es (after_begin _start c w))) ∧
    outcome (Z.to_nat iterations) _start c res es.
Proof.
  destruct (plot_path_loop_effect (Z.to_nat iterations) _start c)
    as (res & es & Hrun & Hout).
  exists res, es. split; [|exact Hout].
  intros w. unfold plot_path, m_bind, begin_path. by rewrite Hrun.
Qed.
End PathEffect.

(** ** The recurrence step, both ways *)

(** X5. For a modulus of at least 2, a multiplier coprime to it and a
    point [p] of [1 .. modulus]: the backward step from [p] returns a
    point [q] of [1 .. modulus], and the forward step from [q] returns
    [p].  Every point so has a predecessor under the forward step. *)
Theorem backward_then_forward (p multiplier modulus : Z) :
  2 ≤ modulus → 1 ≤ p ≤ modulus → Z.gcd multiplier modulus = 1 →
  ∃ q, next_number multiplier modulus false p = Ok q ∧
       1 ≤ q ≤ modulus ∧
       next_number multiplier modulus true q = Ok p.
Proof.
  intros Hm Hp Hg.
  assert (1 ≤ modulus) as Hm1 by lia.
  assert (multiplier ≠ 0) as Hmul.
  { intros ->. rewrite Z.gcd_0_l, Z.abs_eq in Hg; lia. }
  destruct (pow_neg1_invertible multiplier modulus Hm Hg) as (inv & Hinv & Hi & Hd).
  rewrite (next_number_backward _ _ _ _ Hinv).
  assert (p * inv ≠ 0) as Hpi by (apply Z.neq_mul_0; lia).
  set (q := (p * inv - 1) mod modulus + 1).
  assert (digital_root (p * inv) modulus = Ok q) as Hq
    by (apply digital_root_nonzero; lia).
  pose proof (digital_root_in_range _ _ _ Hpi Hm1 Hq) as Hqr.
  pose proof (digital_root_congr _ _ _ Hpi Hm1 Hq) as Hqc.
  exists q. split; [exact Hq|]. split; [exact Hqr|].
  rewrite next_number_forward.
  assert (q * multiplier ≠ 0) as Hqm by (apply Z.neq_mul_0; lia).
  set (r := (q * multiplier - 1) mod modulus + 1).
  assert (digital_root (q * multiplier) modulus = Ok r) as Hr
    by (apply digital_root_nonzero; lia).
  pose proof (digital_root_in_range _ _ _ Hqm Hm1 Hr) as Hrr.
  pose proof (digital_root_congr _ _ _ Hqm Hm1 Hr) as Hrc.
  rewrite Hr. f_equal.
  apply (point_unique modulus); [assumption..|].
  replace (r - p)
    with ((r - q * multiplier) + multiplier * (q - p * inv)
          + p * (inv * multiplier - 1)) by ring.
  apply Z.divide_add_r; [apply Z.divide_add_r|].
  - exact Hrc.
  - by apply Z.divide_mul_r.
  - by apply Z.divide_mul_r.
Qed.

Lemma backward_then_forward_witness :
  ∃ q, next_number 7 100 false 49 = Ok q ∧ 1 ≤ q ≤ 100 ∧
       next_number 7 100 true q = Ok 49.
Proof. apply (backward_then_forward 49 7 100); [lia|lia|reflexivity]. Defined.

(** X6. With a multiplier coprime to the modulus, the forward step
    sends two different points of [1 .. modulus] to two different
    points: no point of the circle is reached from two points. *)
Theorem forward_step_injective (p q multiplier modulus : Z) :
  1 ≤ p ≤ modulus → 1 ≤ q ≤ modulus → Z.gcd multiplier modulus = 1 →
  p ≠ q →
  ∃ r r', next_number multiplier modulus true p = Ok r ∧
          next_number multiplier modulus true q = Ok r' ∧
          r ≠ r'.
Proof.
  intros Hp Hq Hg Hne. rewrite !next_number_forward.
  assert (2 ≤ modulus) as Hm by lia.
  assert (1 ≤ modulus) as Hm1 by lia.
  assert (multiplier ≠ 0) as Hmul.
  { intros ->. rewrite Z.gcd_0_l, Z.abs_eq in Hg; lia. }
  assert (p * multiplier ≠ 0) as Hpm by (apply Z.neq_mul_0; lia).
  assert (q * multiplier ≠ 0) as Hqm by (apply Z.neq_mul_0; lia).
  exists ((p * multiplier - 1) mod modulus + 1),
         ((q * multiplier - 1) mod modulus + 1).
  assert (digital_root (p * multiplier) modulus
          = Ok ((p * multiplier - 1) mod modulus + 1)) as Hpr
    by (apply digital_root_nonzero; lia).
  assert (digital_root (q * multiplier) modulus
          = Ok ((q * multiplier - 1) mod modulus + 1)) as Hqr
    by (apply digital_root_nonzero; lia).
  split; [exact Hpr|]. split; [exact Hqr|]. intros Heq.
  rewrite <- Heq in Hqr.
  pose proof (digital_root_congr _ _ _ Hpm Hm1 Hpr) as Hpc.
  pose proof (digital_root_congr _ _ _ Hqm Hm1 Hqr) as Hqc.
  apply Hne, (point_unique modulus); [assumption..|].
  apply (Z.gauss modulus multiplier); [|by rewrite Z.gcd_comm].
  replace (multiplier * (p - q))
    with (((p * multiplier - 1) mod modulus + 1 - q * multiplier)
          - ((p * multiplier - 1) mod modulus + 1 - p * multiplier)) by ring.
  by apply Z.divide_sub_r.
Qed.

Lemma forward_step_injective_witness :
  ∃ r r', next_number 7 100 true 43 = Ok r ∧
          next_number 7 100 true 93 = Ok r' ∧
          r ≠ r'.
Proof.
  apply (forward_step_injective 43 93 7 100); [lia|lia|reflexivity|lia].
Defined.

(** ** The arrows of one path *)

Lemma all_but_last (P : arrow → Prop) (es : list arrow) :
  (∀ init a rest, es = init ++ a :: rest → rest ≠ [] → P a) →
  Forall P (take (length es - 1) es).
Proof.
  intros H. apply Forall_forall. intros x Hx.
  apply elem_of_take in Hx as (i & Hi & Hlt).
  apply (H (take i es) x (drop (S i) es)).
  - symmetry. by apply take_drop_middle.
  - intros Hd. apply (f_equal length) in Hd.
    rewrite length_drop in Hd. simpl in Hd. lia.
Qed.

(** Along a chain of forward steps from a non-zero point, the arrow of
    index [i] ends at the digital root of the point times the
    [i + 1]-th power of the multiplier. *)
Lemma forward_chain_closed_form (multiplier modulus : Z) (es : list arrow) :
  multiplier ≠ 0 → 1 ≤ modulus →
  ∀ p, p ≠ 0 → chain_from p es →
       Forall (λ a, next_number multiplier modulus true (from_point a)
                    = Ok (to_point a)) es →
       ∀ i a, es !! i = Some a →
              digital_root (p * multiplier ^ (Z.of_nat i + 1)) modulus
              = Ok (to_point a).
Proof.
  intros Hmul Hm. induction es as [|a0 es IH]; intros p Hp Hchain Hall i a Hi.
  { by rewrite lookup_nil in Hi. }
  destruct Hchain as [Hfrom Hchain]. apply Forall_cons in Hall as [Ha0 Hall].
  rewrite next_number_forward, Hfrom in Ha0.
  assert (p * multiplier ≠ 0) as Hpm by (by apply Z.neq_mul_0).
  pose proof (digital_root_in_range _ _ _ Hpm Hm Ha0) as Hq.
  pose proof (digital_root_congr _ _ _ Hpm Hm Ha0) as Hqc.
  destruct i as [|i]; simpl in Hi.
  - injection Hi as <-. by rewrite Z.pow_1_r.
  - rewrite <- (IH (to_point a0) ltac:(lia) Hchain Hall i a Hi).
    assert (multiplier ^ (Z.of_nat i + 1) ≠ 0) as Hpow
      by (apply Z.pow_nonzero; lia).
    apply digital_root_congruent; [| |assumption|].
    + apply Z.neq_mul_0. split; [assumption|]. apply Z.pow_nonzero; lia.
    + apply Z.neq_mul_0. split; [lia|assumption].
    + replace (Z.of_nat (S i) + 1) with (Z.succ (Z.of_nat i + 1)) by lia.
      rewrite Z.pow_succ_r by lia.
      replace (p * (multiplier * multiplier ^ (Z.of_nat i + 1))
               - to_point a0 * multiplier ^ (Z.of_nat i + 1))
        with (- (multiplier ^ (Z.of_nat i + 1) * (to_point a0 - p * multiplier)))
        by ring.
      apply Z.divide_opp_r. by apply Z.divide_mul_r.
Qed.

(** X7. On a forward path from a non-zero point, with a non-zero
    multiplier, the arrow of index [i] ends at
    [digital_root(_start * multiplier ** (i + 1), modulus)]: the points
    of the path are the digital roots of the start times the powers of
    the multiplier. *)
Theorem forward_path_closed_form
        (start multiplier modulus iterations _start : Z) (color : string)
        (w : world) (i : nat) (a : arrow) :
  multiplier ≠ 0 → _start ≠ 0 → 1 ≤ modulus →
  arrows (snd (plot_path start multiplier modulus iterations true _start color w))
    !! (length (arrows w) + i)%nat = Some a →
  digital_root (_start * multiplier ^ (Z.of_nat i + 1)) modulus = Ok (to_point a).
Proof.
  intros Hmul Hs Hm Ha.
  destruct (plot_path_effect start multiplier modulus iterations true _start color)
    as (res & es & Hrun & _ & Hchain & Hall & _).
  rewrite Hrun in Ha. simpl in Ha.
  rewrite lookup_app_r in Ha by lia.
  replace (length (arrows w) + i - length (arrows w))%nat with i in Ha by lia.
  apply (forward_chain_closed_form multiplier modulus es Hmul Hm _start Hs Hchain);
    [|exact Ha].
  eapply Forall_impl; [exact Hall|]. by intros x [? _].
Qed.

Lemma forward_path_closed_form_witness :
  digital_root (1 * 7 ^ (Z.of_nat 2 + 1)) 100 = Ok (to_point (Arrow 49 43 "gray")).
Proof.
  apply (forward_path_closed_form 1 7 100 100 1 "gray" (fresh_world 0) 2
           (Arrow 49 43 "gray")); [lia|lia|lia|vm_compute; reflexivity].
Defined.

(** X8. What one call of [plot_path] does, whatever its result: it is
    entered in the trace, and it adds at most [iterations] arrows, all
    in its colour, that form a chain from [_start], each one a
    recurrence step; the points it marks as visited are exactly the
    sources of these arrows; the random source is not touched. *)
Theorem plot_path_draws_a_chain
        (start multiplier modulus iterations : Z) (direction : bool)
        (_start : Z) (color : string) (w : world) :
  ∃ es,
    snd (plot_path start multiplier modulus iterations direction _start color w)
    = after_arrows es (after_begin _start color w) ∧
    (length es ≤ Z.to_nat iterations)%nat ∧
    chain_from _start es ∧
    Forall (λ a, next_number multiplier modulus direction (from_point a)
                 = Ok (to_point a) ∧ arrow_color a = color) es.
Proof.
  destruct (plot_path_effect start multiplier modulus iterations direction
              _start color) as (res & es & Hrun & Hlen & Hchain & Hall & _).
  exists es. rewrite Hrun. split; [reflexivity|]. split; [exact Hlen|].
  split; [exact Hchain|].
  eapply Forall_impl; [exact Hall|]. by intros x (? & ? & _).
Qed.

(** X9. The first path, seeded from [start] itself, when it returns:
    none of its arrows but the last comes back to [start], and either
    its last arrow comes back to [start] or it has used all its
    iterations. *)
Theorem first_path_stops_at_first_return
        (start multiplier modulus iterations : Z) (direction : bool)
        (color : string) (w : world) :
  fst (plot_path start multiplier modulus iterations direction start color w)
  = Ok tt →
  ∃ es,
    arrows (snd (plot_path start multiplier modulus iterations direction
                   start color w)) = arrows w ++ es ∧
    Forall (λ a, to_point a ≠ start) (take (length es - 1) es) ∧
    ((es ≠ [] ∧ end_point start es = start) ∨
     length es = Z.to_nat iterations).
Proof.
  intros Hok.
  destruct (plot_path_effect start multiplier modulus iterations direction
              start color)
    as (res & es & Hrun & Hlen & _ & _ & Hinner & Hearly & _).
  rewrite Hrun in *. simpl in Hok. exists es. split; [reflexivity|].
  split; [by apply all_but_last|].
  destruct (decide (length es < Z.to_nat iterations)%nat) as [Hlt|Hge].
  - left. by apply Hearly.
  - right. lia.
Qed.

Lemma first_path_stops_at_first_return_witness :
  ∃ es,
    arrows (snd (plot_path 1 7 100 100 true 1 "gray" (fresh_world 0)))
    = arrows (fresh_world 0) ++ es ∧
    Forall (λ a, to_point a ≠ 1) (take (length es - 1) es) ∧
    ((es ≠ [] ∧ end_point 1 es = 1) ∨ length es = Z.to_nat 100).
Proof.
  apply (first_path_stops_at_first_return 1 7 100 100 true "gray" (fresh_world 0)).
  vm_compute. reflexivity.
Defined.


(** ** Invariants of a whole run *)

Section RunEffect.
Variables start multiplier modulus iterations : Z.
Variable direction : bool.
Variables background_color text_color : string.
Variable recursive : bool.
Variable to_rgb : string → option rgb.
Variable rnd : nat → nat.

Local Abbreviation path := (plot_path start multiplier modulus iterations direction).
Local Abbreviation unvisited :=
  (plot_unvisited start multiplier modulus iterations direction rnd).
Local Abbreviation all_paths :=
  (plot_paths start multiplier modulus iterations direction recursive rnd).
Local Abbreviation circle :=
  (plot_modulus_circle start multiplier modulus iterations direction
     background_color text_color recursive to_rgb rnd).

(** A property of the world that every path keeps, when its colour is
    one of the palette and it is seeded from [start] or from a point of
    [1 .. modulus - 1] right after the colour is drawn, is kept by the
    paths as a whole. *)
Lemma plot_paths_preserves (I : world → Prop) (colors : list string) :
  (∀ seed c w, c ∈ colors → seed = start ∨ 1 ≤ seed < modulus →
               I w → I (snd (path seed c (after_draw w)))) →
  ∀ w, I w → I (snd (all_paths colors w)).
Proof.
  intros Hpath w Hw.
  destruct colors as [|c0 colors'] eqn:Ec; [exact Hw|]. rewrite <- Ec in *.
  destruct (plot_paths_run start multiplier modulus iterations direction
              recursive rnd colors w) as (c & Hc & ->); [by subst|].
  pose proof (Hpath start c w Hc ltac:(by left) Hw) as H1.
  destruct (path start c (after_draw w)) as [[[]|e] w1]; simpl in *; [|exact H1].
  destruct recursive; [|exact H1].
  apply for_each_invariant; [|exact H1].
  intros p w2 Hp H2. rewrite plot_unvisited_run. apply elem_of_seqZ in Hp.
  destruct (bool_decide (p ∉ visited w2)); [|exact H2]. simpl.
  destruct (Z.eqb_spec p modulus); [exact H2|]. simpl.
  destruct (random_choice_spec rnd colors w2) as [[_ ->]|(c' & Hc' & ->)];
    [exact H2|].
  apply Hpath; [exact Hc'|right; lia|exact H2].
Qed.

(** The same for the whole run, which starts from a new canvas. *)
Lemma plot_modulus_circle_preserves (I : world → Prop) (w : world) :
  1 ≤ modulus →
  I (fresh_world (draws w)) →
  (∀ colors seed c w',
     palette background_color text_color to_rgb = Ok colors →
     c ∈ colors → seed = start ∨ 1 ≤ seed < modulus →
     I w' → I (snd (path seed c (after_draw w')))) →
  I (snd (circle w)).
Proof.
  intros Hm Hfresh Hpath. rewrite plot_modulus_circle_run by assumption.
  destruct (run_colors background_color text_color to_rgb) as [colors|e] eqn:Hpal;
    [|exact Hfresh].
  apply plot_paths_preserves; [|exact Hfresh].
  intros seed c w' Hc Hseed Hw'. apply (Hpath colors); try assumption.
  by apply run_colors_Ok in Hpal as (_ & _ & Hpal).
Qed.

(** The paths that the loop over the points enters in the trace are
    seeded from points of the list it runs over, in their order, each
    at most once, and never from [modulus]. *)
Lemma for_each_unvisited_seeds (colors : list string) (l : list Z) :
  ∀ w, ∃ extra,
    paths (snd (for_each l (unvisited colors) w)) = paths w ++ extra ∧
    sublist (extra.*1) l ∧
    Forall (λ sc : Z * string, sc.1 ≠ modulus) extra.
Proof.
  induction l as [|x l IH]; intros w.
  { exists []. simpl. by rewrite app_nil_r. }
  simpl. unfold m_bind. rewrite plot_unvisited_run.
  destruct (bool_decide (x ∉ visited w) && negb (x =? modulus)) eqn:Hcond.
  - apply andb_true_iff in Hcond as [_ Hne].
    apply negb_true_iff, Z.eqb_neq in Hne.
    destruct (random_choice_spec rnd colors w) as [[_ ->]|(c & _ & ->)].
    { exists []. simpl. rewrite app_nil_r. split; [done|].
      split; [apply sublist_nil_l|constructor]. }
    pose proof (plot_path_frame start multiplier modulus iterations direction
                  x c (after_draw w)) as (Hp & _).
    destruct (path x c (after_draw w)) as [[[]|e] w1]; simpl in Hp.
    + destruct (IH w1) as (extra & He & Hsub & Hall).
      exists ((x, c) :: extra). rewrite He, Hp, <- app_assoc.
      split; [done|]. split; [by constructor|by constructor].
    + exists [(x, c)]. simpl. split; [exact Hp|].
      split; [constructor; apply sublist_nil_l|by repeat constructor].
  - destruct (IH w) as (extra & He & Hsub & Hall).
    exists extra. split; [exact He|]. split; [by constructor|exact Hall].
Qed.

(** The trace of a whole run: nothing, or the path from [start] and
    then paths from points of [1 .. modulus - 1] in increasing
    order. *)
Lemma plot_modulus_circle_seeds (w : world) :
  1 ≤ modulus →
  paths (snd (circle w)) = [] ∨
  ∃ c0 rest, paths (snd (circle w)) = (start, c0) :: rest ∧
             sublist (rest.*1) (seqZ 1 (modulus - 1)).
Proof.
  intros Hm. rewrite plot_modulus_circle_run by assumption.
  destruct (run_colors background_color text_color to_rgb) as [colors|e];
    [|by left].
  destruct colors as [|c0 colors'] eqn:Ec; [by left|]. rewrite <- Ec in *.
  destruct (plot_paths_run start multiplier modulus iterations direction
              recursive rnd colors (fresh_world (draws w)))
    as (c & _ & ->); [by subst|].
  pose proof (plot_path_frame start multiplier modulus iterations direction
                start c (after_draw (fresh_world (draws w)))) as (Hp & _).
  destruct (path start c (after_draw (fresh_world (draws w))))
    as [[[]|e] w1]; simpl in Hp; right.
  2: { exists c, []. split; [exact Hp|apply sublist_nil_l]. }
  destruct recursive.
  2: { exists c, []. split; [exact Hp|apply sublist_nil_l]. }
  destruct (for_each_unvisited_seeds colors (seqZ 1 modulus) w1)
    as (extra & He & Hsub & Hall).
  exists c, extra. rewrite He, Hp. split; [reflexivity|].
  replace modulus with ((modulus - 1) + 1) in Hsub at 1 by lia.
  rewrite seqZ_app in Hsub by lia.
  apply sublist_app_r in Hsub as (l1 & l2 & Heq & H1 & H2).
  replace (1 + (modulus - 1)) with modulus in H2 by lia.
  rewrite seqZ_cons, seqZ_nil in H2 by lia.
  destruct l2 as [|y l2].
  - rewrite app_nil_r in Heq. by rewrite Heq.
  - exfalso. apply sublist_cons_l in H2 as (k1 & k2 & Hk & Hl2).
    assert (y = modulus) as ->.
    { destruct k1 as [|? [|? ?]]; simplify_eq/=; done. }
    assert (modulus ∈ extra.*1) as Hin by (rewrite Heq; set_solver).
    apply list_elem_of_fmap in Hin as ([y c'] & Hy & Hin). simpl in Hy. subst y.
    by apply (proj1 (Forall_forall _ _) Hall) in Hin.
Qed.
End RunEffect.

(** The names of the palette: those of the list, other than the
    background and the text colour, that pass the luminance test, in
    the order of the list. *)
Lemma palette_members
      (background_color text_color : string) (to_rgb : string → option rgb)
      (colors : list string) :
  palette background_color text_color to_rgb = Ok colors →
  sublist colors named_colors ∧
  ∀ c, c ∈ colors ↔
       c ∈ named_colors ∧ c ≠ background_color ∧ c ≠ text_color ∧
       retained to_rgb default_low default_high c = true.
Proof.
  unfold palette.
  destruct (list_remove background_color named_colors) as [colors1|] eqn:H1;
    [|discriminate]. simpl.
  destruct (list_remove text_color colors1) as [colors2|] eqn:H2;
    [|discriminate]. simpl.
  intros H3. apply filter_colors_loop_spec in H3. simpl in H3. subst colors.
  pose proof (list_remove_Ok _ _ _ H1) as [Hsub1 Hbg].
  pose proof (list_remove_Ok _ _ _ H2) as [Hsub2 Hfg].
  specialize (Hbg named_colors_NoDup).
  assert (NoDup colors1) as Hnd1
    by (eapply sublist_NoDup; [apply named_colors_NoDup|exact Hsub1]).
  specialize (Hfg Hnd1).
  split.
  { etrans; [apply filter_sublist|]. by etrans. }
  intros c. rewrite list_elem_of_In, filter_In, <- list_elem_of_In. split.
  - intros [Hc Hret].
    assert (c ∈ colors1) as Hc1 by (by eapply elem_of_sublist).
    split; [by eapply elem_of_sublist|].
    split; [by intros ->|]. split; [by intros ->|done].
  - intros (Hc & Hnb & Hnf & Hret). split; [|done].
    eapply list_remove_keeps; [exact H2| |done].
    by eapply list_remove_keeps; [exact H1| |].
Qed.

(** X10. After a run, whatever its result, the visited set is exactly
    the set of the points that are the source of an arrow. *)
Theorem visited_are_the_sources
        (start multiplier modulus iterations : Z) (direction : bool)
        (background_color text_color : string) (recursive : bool)
        (to_rgb : string → option rgb) (rnd : nat → nat) (w : world) :
  1 ≤ modulus →
  let r := plot_modulus_circle start multiplier modulus iterations direction
             background_color text_color recursive to_rgb rnd w in
  visited (snd r) = list_to_set (sources (snd r)).
Proof.
  intros Hm r. subst r.
  apply (plot_modulus_circle_preserves start multiplier modulus iterations
           direction background_color text_color recursive to_rgb rnd
           (λ w', visited w' = list_to_set (sources w'))); [assumption| |].
  - reflexivity.
  - intros colors seed c w' _ _ _ Hw'.
    destruct (plot_path_effect start multiplier modulus iterations direction
                seed c) as (res & es & Hrun & _).
    rewrite Hrun. unfold sources in *. simpl.
    rewrite Hw', map_app, list_to_set_app_L.
    change (from_point <$> es) with (map from_point es).
    apply (comm_L (∪)).
Qed.

Lemma visited_are_the_sources_witness :
  let r := plot_modulus_circle 2 2 9 18 true "black" "white" true
             mid_gray first_choice (fresh_world 0) in
  visited (snd r) = list_to_set (sources (snd r)).
Proof.
  apply (visited_are_the_sources 2 2 9 18 true "black" "white" true
           mid_gray first_choice (fresh_world 0)). lia.
Defined.

(** X11. A run takes exactly one value from the random source for
    each path it starts: one [random.choice] per path, none
    elsewhere. *)
Theorem one_color_draw_per_path
        (start multiplier modulus iterations : Z) (direction : bool)
        (background_color text_color : string) (recursive : bool)
        (to_rgb : string → option rgb) (rnd : nat → nat) (w : world) :
  1 ≤ modulus →
  let r := plot_modulus_circle start multiplier modulus iterations direction
             background_color text_color recursive to_rgb rnd w in
  draws (snd r) = (draws w + length (paths (snd r)))%nat.
Proof.
  intros Hm r. subst r.
  apply (plot_modulus_circle_preserves start multiplier modulus iterations
           direction background_color text_color recursive to_rgb rnd
           (λ w', draws w' = (draws w + length (paths w'))%nat)); [assumption| |].
  - simpl. lia.
  - intros colors seed c w' _ _ _ Hw'.
    destruct (plot_path_effect start multiplier modulus iterations direction
                seed c) as (res & es & Hrun & _).
    rewrite Hrun. simpl. rewrite length_app. simpl. lia.
Qed.

Lemma one_color_draw_per_path_witness :
  let r := plot_modulus_circle 2 2 9 18 true "black" "white" true
             mid_gray first_choice (fresh_world 5) in
  draws (snd r) = (5 + length (paths (snd r)))%nat.
Proof.
  apply (one_color_draw_per_path 2 2 9 18 true "black" "white" true
           mid_gray first_choice (fresh_world 5)). lia.
Defined.

(** X12. Every arrow of a run is drawn in a colour of the palette: a
    name of the list that is neither the background colour nor the
    text colour and that passes the luminance test. *)
Theorem arrow_colors_come_from_the_palette
        (start multiplier modulus iterations : Z) (direction : bool)
        (background_color text_color : string) (recursive : bool)
        (to_rgb : string → option rgb) (rnd : nat → nat) (w : world) :
  1 ≤ modulus →
  let r := plot_modulus_circle start multiplier modulus iterations direction
             background_color text_color recursive to_rgb rnd w in
  Forall (λ a, arrow_color a ∈ named_colors ∧
               arrow_color a ≠ background_color ∧
               arrow_color a ≠ text_color ∧
               retained to_rgb default_low default_high (arrow_color a) = true)
         (arrows (snd r)).
Proof.
  intros Hm r. subst r.
  apply (plot_modulus_circle_preserves start multiplier modulus iterations
           direction background_color text_color recursive to_rgb rnd
           (λ w', Forall (λ a, arrow_color a ∈ named_colors ∧
                               arrow_color a ≠ background_color ∧
                               arrow_color a ≠ text_color ∧
                               retained to_rgb default_low default_high
                                 (arrow_color a) = true) (arrows w')));
    [assumption|constructor|].
  intros colors seed c w' Hpal Hc _ Hw'.
  destruct (plot_path_effect start multiplier modulus iterations direction
              seed c) as (res & es & Hrun & _ & _ & Hall & _).
  rewrite Hrun. simpl. apply Forall_app. split; [exact Hw'|].
  apply palette_members in Hpal as [_ Hmem]. apply Hmem in Hc.
  eapply Forall_impl; [exact Hall|]. by intros a (_ & -> & _).
Qed.

Lemma arrow_colors_come_from_the_palette_witness :
  let r := plot_modulus_circle 2 2 9 18 true "black" "white" true
             mid_gray first_choice (fresh_world 0) in
  Forall (λ a, arrow_color a ∈ named_colors ∧
               arrow_color a ≠ "black" ∧
               arrow_color a ≠ "white" ∧
               retained mid_gray default_low default_high (arrow_color a) = true)
         (arrows (snd r)).
Proof.
  apply (arrow_colors_come_from_the_palette 2 2 9 18 true "black" "white" true
           mid_gray first_choice (fresh_world 0)). lia.
Defined.

(** X13. With [recursive=False] a run draws at most one path: its
    arrows are a chain from [start] of at most [iterations] arrows. *)
Theorem non_recursive_run_is_one_path
        (start multiplier modulus iterations : Z) (direction : bool)
        (background_color text_color : string)
        (to_rgb : string → option rgb) (rnd : nat → nat) (w : world) :
  1 ≤ modulus →
  let r := plot_modulus_circle start multiplier modulus iterations direction
             background_color text_color false to_rgb rnd w in
  (length (paths (snd r)) ≤ 1)%nat ∧
  chain_from start (arrows (snd r)) ∧
  (length (arrows (snd r)) ≤ Z.to_nat iterations)%nat.
Proof.
  intros Hm r. subst r.
  rewrite plot_modulus_circle_run by assumption.
  destruct (run_colors background_color text_color to_rgb) as [colors|e];
    [|simpl; auto with lia].
  destruct colors as [|c0 colors'] eqn:Ec; [simpl; auto with lia|].
  rewrite <- Ec in *.
  destruct (plot_paths_run start multiplier modulus iterations direction false
              rnd colors (fresh_world (draws w))) as (c & _ & ->); [by subst|].
  destruct (plot_path_effect start multiplier modulus iterations direction
              start c) as (res & es & Hrun & Hlen & Hchain & _).
  rewrite Hrun. destruct res as [[]|e]; simpl; auto.
Qed.

Lemma non_recursive_run_is_one_path_witness :
  let r := plot_modulus_circle 2 2 9 18 true "black" "white" false
             mid_gray first_choice (fresh_world 0) in
  (length (paths (snd r)) ≤ 1)%nat ∧
  chain_from 2 (arrows (snd r)) ∧
  (length (arrows (snd r)) ≤ Z.to_nat 18)%nat.
Proof.
  apply (non_recursive_run_is_one_path 2 2 9 18 true "black" "white"
           mid_gray first_choice (fresh_world 0)). lia.
Defined.

(** X14. A run draws at most [iterations] arrows for each path it
    starts and starts at most [modulus] paths, so at most
    [iterations * modulus] arrows in all. *)
Theorem arrows_are_bounded
        (start multiplier modulus iterations : Z) (direction : bool)
        (background_color text_color : string) (recursive : bool)
        (to_rgb : string → option rgb) (rnd : nat → nat) (w : world) :
  1 ≤ modulus →
  let r := plot_modulus_circle start multiplier modulus iterations direction
             background_color text_color recursive to_rgb rnd w in
  (length (arrows (snd r)) ≤ Z.to_nat iterations * length (paths (snd r)))%nat ∧
  (length (paths (snd r)) ≤ Z.to_nat modulus)%nat ∧
  (length (arrows (snd r)) ≤ Z.to_nat iterations * Z.to_nat modulus)%nat.
Proof.
  intros Hm r. subst r.
  assert (length (arrows (snd (plot_modulus_circle start multiplier modulus
            iterations direction background_color text_color recursive to_rgb
            rnd w)))
          ≤ Z.to_nat iterations
            * length (paths (snd (plot_modulus_circle start multiplier modulus
                iterations direction background_color text_color recursive
                to_rgb rnd w))))%nat as Harrows.
  { apply (plot_modulus_circle_preserves start multiplier modulus iterations
             direction background_color text_color recursive to_rgb rnd
             (λ w', (length (arrows w')
                     ≤ Z.to_nat iterations * length (paths w'))%nat));
      [assumption|simpl; lia|].
    intros colors seed c w' _ _ _ Hw'.
    destruct (plot_path_effect start multiplier modulus iterations direction
                seed c) as (res & es & Hrun & Hlen & _).
    rewrite Hrun. simpl. rewrite !length_app. simpl. nia. }
  assert (length (paths (snd (plot_modulus_circle start multiplier modulus
            iterations direction background_color text_color recursive to_rgb
            rnd w))) ≤ Z.to_nat modulus)%nat as Hpaths.
  { destruct (plot_modulus_circle_seeds start multiplier modulus iterations
                direction background_color text_color recursive to_rgb rnd w Hm)
      as [->|(c0 & rest & -> & Hsub)]; [simpl; lia|].
    apply sublist_length in Hsub.
    rewrite length_fmap, length_seqZ in Hsub. simpl. lia. }
  split; [exact Harrows|]. split; [exact Hpaths|]. nia.
Qed.

Lemma arrows_are_bounded_witness :
  let r := plot_modulus_circle 2 2 9 18 true "black" "white" true
             mid_gray first_choice (fresh_world 0) in
  (length (arrows (snd r)) ≤ Z.to_nat 18 * length (paths (snd r)))%nat ∧
  (length (paths (snd r)) ≤ Z.to_nat 9)%nat ∧
  (length (arrows (snd r)) ≤ Z.to_nat 18 * Z.to_nat 9)%nat.
Proof.
  apply (arrows_are_bounded 2 2 9 18 true "black" "white" true
           mid_gray first_choice (fresh_world 0)). lia.
Defined.

(** X15. The order of the paths of a run, whatever its result: the
    first is seeded from [start]; the others are seeded from points of
    [1 .. modulus - 1] in increasing order, no point twice. *)
Theorem paths_are_seeded_in_order
        (start multiplier modulus iterations : Z) (direction : bool)
        (background_color text_color : string) (recursive : bool)
        (to_rgb : string → option rgb) (rnd : nat → nat) (w : world) :
  1 ≤ modulus →
  let r := plot_modulus_circle start multiplier modulus iterations direction
             background_color text_color recursive to_rgb rnd w in
  paths (snd r) = [] ∨
  ∃ c0 rest, paths (snd r) = (start, c0) :: rest ∧
             sublist (rest.*1) (seqZ 1 (modulus - 1)) ∧
             NoDup (rest.*1).
Proof.
  intros Hm r. subst r.
  destruct (plot_modulus_circle_seeds start multiplier modulus iterations
              direction background_color text_color recursive to_rgb rnd w Hm)
    as [H|(c0 & rest & H & Hsub)]; [by left|right].
  exists c0, rest. split; [exact H|]. split; [exact Hsub|].
  eapply sublist_NoDup; [apply NoDup_seqZ|exact Hsub].
Qed.

Lemma paths_are_seeded_in_order_witness :
  let r := plot_modulus_circle 2 2 9 18 true "black" "white" true
             mid_gray first_choice (fresh_world 0) in
  paths (snd r) = [] ∨
  ∃ c0 rest, paths (snd r) = (2, c0) :: rest ∧
             sublist (rest.*1) (seqZ 1 (9 - 1)) ∧
             NoDup (rest.*1).
Proof.
  apply (paths_are_seeded_in_order 2 2 9 18 true "black" "white" true
           mid_gray first_choice (fresh_world 0)). lia.
Defined.

(** ** When a run returns and when it raises *)

Lemma for_each_returns {A : Type} (body : A → M unit) (l : list A) :
  (∀ x w, x ∈ l → fst (body x w) = Ok tt) →
  ∀ w, fst (for_each l body w) = Ok tt.
Proof.
  induction l as [|x l IH]; intros Hbody w; [reflexivity|].
  simpl. unfold m_bind.
  pose proof (Hbody x w ltac:(left)) as Hx.
  destruct (body x w) as [[[]|e] w1]; simpl in Hx; [|discriminate].
  apply IH. intros y w' Hy. apply Hbody. by right.
Qed.

Lemma end_point_accepted (modulus p : Z) (es : list arrow) :
  index_accepted modulus p →
  Forall (λ a, index_accepted modulus (to_point a)) es →
  index_accepted modulus (end_point p es).
Proof.
  intros Hp Hall. unfold end_point. destruct (last es) as [a|] eqn:E; [|exact Hp].
  apply last_Some in E as [init ->].
  apply Forall_app in Hall as [_ Hall]. by apply Forall_inv in Hall.
Qed.

(** The step never raises and gives a point of [0 .. modulus] when
    the direction is forward, or backward with a multiplier coprime to
    the modulus. *)
Lemma next_number_returns (multiplier modulus : Z) (direction : bool) (p : Z) :
  1 ≤ modulus →
  direction = true ∨ Z.gcd multiplier modulus = 1 →
  ∃ q, next_number multiplier modulus direction p = Ok q ∧ 0 ≤ q ≤ modulus.
Proof.
  intros Hm Hdir.
  assert (∀ n, ∃ q, digital_root n modulus = Ok q ∧ 0 ≤ q ≤ modulus) as Hdr.
  { intros n. destruct (Z.eq_dec n 0) as [->|Hn].
    - exists 0. split; [reflexivity|lia].
    - exists ((n - 1) mod modulus + 1).
      rewrite digital_root_nonzero by lia. split; [reflexivity|].
      pose proof (Z.mod_pos_bound (n - 1) modulus). lia. }
  destruct direction; [apply Hdr|].
  destruct Hdir as [?|Hg]; [discriminate|].
  destruct (Z.eq_dec modulus 1) as [->|Hne].
  - exists 0. split; [|lia]. unfold next_number. simpl.
    by rewrite Z.mul_0_r.
  - destruct (pow_neg1_invertible multiplier modulus ltac:(lia) Hg)
      as (inv & Hinv & _).
    rewrite (next_number_backward _ _ _ _ Hinv). apply Hdr.
Qed.

Section RunResult.
Variables start multiplier modulus iterations : Z.
Variable direction : bool.
Variables background_color text_color : string.
Variable recursive : bool.
Variable to_rgb : string → option rgb.
Variable rnd : nat → nat.

Local Abbreviation path := (plot_path start multiplier modulus iterations direction).
Local Abbreviation unvisited :=
  (plot_unvisited start multiplier modulus iterations direction rnd).
Local Abbreviation all_paths :=
  (plot_paths start multiplier modulus iterations direction recursive rnd).

(** A path from a point whose index [angles] accepts returns, when the
    step never raises. *)
Lemma plot_path_returns (_start : Z) (c : string) (w : world) :
  1 ≤ modulus →
  direction = true ∨ Z.gcd multiplier modulus = 1 →
  index_accepted modulus _start →
  fst (path _start c w) = Ok tt.
Proof.
  intros Hm Hdir Hs.
  destruct (plot_path_effect start multiplier modulus iterations direction
              _start c) as (res & es & Hrun & _ & _ & Hall & _ & _ & _ & Hraise).
  rewrite Hrun. simpl. destruct res as [[]|e]; [reflexivity|exfalso].
  assert (index_accepted modulus (end_point _start es)) as Hend.
  { apply end_point_accepted; [exact Hs|].
    eapply Forall_impl; [exact Hall|]. by intros a (_ & _ & _ & ?). }
  destruct (next_number_returns multiplier modulus direction
              (end_point _start es) Hm Hdir) as (q & Hq & Hqr).
  destruct (Hraise e eq_refl) as [H|(_ & next & Hn & [H|H])].
  - rewrite Hq in H. discriminate.
  - contradiction.
  - rewrite Hq in Hn. injection Hn as <-. apply H. unfold index_accepted. lia.
Qed.

Lemma plot_paths_returns (colors : list string) (w : world) :
  1 ≤ modulus →
  direction = true ∨ Z.gcd multiplier modulus = 1 →
  index_accepted modulus start →
  colors ≠ [] →
  fst (all_paths colors w) = Ok tt.
Proof.
  intros Hm Hdir Hs Hne.
  destruct (plot_paths_run start multiplier modulus iterations direction
              recursive rnd colors w Hne) as (c & _ & ->).
  pose proof (plot_path_returns start c (after_draw w) Hm Hdir Hs) as H1.
  destruct (path start c (after_draw w)) as [[[]|e] w1]; simpl in H1;
    [|discriminate].
  destruct recursive; [|reflexivity].
  apply for_each_returns. intros p w2 Hp. rewrite plot_unvisited_run.
  apply elem_of_seqZ in Hp.
  destruct (bool_decide (p ∉ visited w2) && negb (p =? modulus)); [|reflexivity].
  destruct (random_choice_spec rnd colors w2) as [[? _]|(c' & _ & ->)];
    [contradiction|].
  apply plot_path_returns; [assumption..|]. unfold index_accepted. lia.
Qed.

(** The first path from a point whose index [angles] refuses ends on
    the exception of its first round. *)
Lemma plot_paths_start_refused (colors : list string) (w : world) :
  1 ≤ iterations →
  ¬ index_accepted modulus start →
  colors ≠ [] →
  fst (all_paths colors w)
  = match next_number multiplier modulus direction start with
    | Raise e => Raise e
    | Ok _ => Raise IndexError_angles
    end ∧
  arrows (snd (all_paths colors w)) = arrows w.
Proof.
  intros Hi Hs Hne.
  destruct (plot_paths_run start multiplier modulus iterations direction
              recursive rnd colors w Hne) as (c & _ & ->).
  unfold plot_path, m_bind, begin_path.
  destruct (Z.to_nat iterations) as [|n] eqn:E; [lia|].
  rewrite plot_path_loop_S.
  destruct (next_number multiplier modulus direction start) as [next|e];
    [|by simpl].
  destruct (angles_index_cases modulus start) as [[? _]|[_ ->]];
    [contradiction|by simpl].
Qed.
End RunResult.

(** X16. A run in the forward direction, or backward with a
    multiplier coprime to the modulus, from a start point whose index
    [angles] accepts ([1 - modulus <= start <= modulus]), returns as
    soon as its colours are set and its palette is there and not
    empty: no step, no index and no later path can raise. *)
Theorem run_returns
        (start multiplier modulus iterations : Z) (direction : bool)
        (background_color text_color : string) (recursive : bool)
        (to_rgb : string → option rgb) (rnd : nat → nat) (w : world) :
  1 ≤ modulus →
  direction = true ∨ Z.gcd multiplier modulus = 1 →
  1 - modulus ≤ start ≤ modulus →
  fst (plot_modulus_circle start multiplier modulus iterations direction
         background_color text_color recursive to_rgb rnd w)
  = match run_colors background_color text_color to_rgb with
    | Raise e => Raise e
    | Ok [] => Raise IndexError_choice
    | Ok (_ :: _) => Ok tt
    end.
Proof.
  intros Hm Hdir Hs. rewrite plot_modulus_circle_run by assumption.
  destruct (run_colors background_color text_color to_rgb) as [colors|e];
    [|reflexivity].
  destruct colors as [|c0 colors']; [reflexivity|].
  by apply plot_paths_returns.
Qed.

Lemma run_returns_witness :
  fst (plot_modulus_circle 1 7 100 100 false "black" "white" true
         mid_gray first_choice (fresh_world 0))
  = match run_colors "black" "white" mid_gray with
    | Raise e => Raise e
    | Ok [] => Raise IndexError_choice
    | Ok (_ :: _) => Ok tt
    end.
Proof.
  apply (run_returns 1 7 100 100 false "black" "white" true
           mid_gray first_choice (fresh_world 0));
    [lia|right; reflexivity|lia].
Defined.

(** X17. A start point outside [1 - modulus .. modulus] is refused by
    [angles]: with at least one iteration the run ends in its first
    round, on [IndexError] (or on the exception of the step, when the
    step raises first), and no arrow is drawn. *)
Theorem start_outside_the_circle_raises
        (start multiplier modulus iterations : Z) (direction : bool)
        (background_color text_color : string) (recursive : bool)
        (to_rgb : string → option rgb) (rnd : nat → nat) (w : world) :
  1 ≤ modulus → 1 ≤ iterations →
  start < 1 - modulus ∨ modulus < start →
  let r := plot_modulus_circle start multiplier modulus iterations direction
             background_color text_color recursive to_rgb rnd w in
  fst r = match run_colors background_color text_color to_rgb with
          | Raise e => Raise e
          | Ok [] => Raise IndexError_choice
          | Ok (_ :: _) =>
              match next_number multiplier modulus direction start with
              | Raise e => Raise e
              | Ok _ => Raise IndexError_angles
              end
          end ∧
  arrows (snd r) = [].
Proof.
  intros Hm Hi Hs r. subst r. rewrite plot_modulus_circle_run by assumption.
  destruct (run_colors background_color text_color to_rgb) as [colors|e];
    [|auto].
  destruct colors as [|c0 colors']; [auto|].
  apply plot_paths_start_refused; [assumption| |discriminate].
  unfold index_accepted. lia.
Qed.

Lemma start_outside_the_circle_raises_witness :
  let r := plot_modulus_circle 10 2 9 18 true "black" "white" true
             mid_gray first_choice (fresh_world 0) in
  fst r = match run_colors "black" "white" mid_gray with
          | Raise e => Raise e
          | Ok [] => Raise IndexError_choice
          | Ok (_ :: _) =>
              match next_number 2 9 true 10 with
              | Raise e => Raise e
              | Ok _ => Raise IndexError_angles
              end
          end ∧
  arrows (snd r) = [].
Proof.
  apply (start_outside_the_circle_raises 10 2 9 18 true "black" "white" true
           mid_gray first_choice (fresh_world 0)); [lia|lia|right; lia].
Defined.

Example start_10_on_a_circle_of_9 :
  fst (plot_modulus_circle 10 2 9 18 true "black" "white" true
         mid_gray first_choice (fresh_world 0)) = Raise IndexError_angles.
Proof. vm_compute. reflexivity. Qed.

(** X18. The same colour for the background and for the text, when
    it is one that matplotlib resolves, makes the run raise the
    [ValueError] of [list.remove] (past the two checks on [modulus]):
    the second [remove] does not find the name that the first has
    taken out, or the first does not find it at all. *)
Theorem same_background_and_text_raises
        (start multiplier modulus iterations : Z) (direction : bool)
        (color : string) (recursive : bool)
        (to_rgb : string → option rgb) (rnd : nat → nat) (w : world) :
  1 ≤ modulus →
  is_Some (to_rgb color) →
  let r := plot_modulus_circle start multiplier modulus iterations direction
             color color recursive to_rgb rnd w in
  fst r = Raise ValueError_remove ∧ arrows (snd r) = [] ∧ paths (snd r) = [].
Proof.
  intros Hm Hcolor r. subst r.
  rewrite plot_modulus_circle_run, run_colors_renderable by assumption.
  assert (palette color color to_rgb = Raise ValueError_remove) as ->; [|auto].
  unfold palette.
  destruct (list_remove color named_colors) as [colors1|e] eqn:H1.
  - simpl. apply list_remove_Ok in H1 as [_ Hnot].
    by rewrite list_remove_absent by (apply Hnot, named_colors_NoDup).
  - destruct (decide (color ∈ named_colors)) as [Hin|Hout].
    + destruct (list_remove_present _ _ Hin) as [? H]. congruence.
    + rewrite list_remove_absent in H1 by assumption. by injection H1 as <-.
Qed.

Lemma same_background_and_text_raises_witness :
  let r := plot_modulus_circle 2 2 9 18 true "orange" "orange" true
             css_samples first_choice (fresh_world 0) in
  fst r = Raise ValueError_remove ∧ arrows (snd r) = [] ∧ paths (snd r) = [].
Proof.
  apply (same_background_and_text_raises 2 2 9 18 true "orange" true
           css_samples first_choice (fresh_world 0)); [lia|by eexists].
Defined.

(** X28. The figure takes the two colours before the palette is
    built.  A background colour that matplotlib does not resolve makes
    the run raise at line 94, and a text colour that it does not
    resolve (the string ["auto"] apart) at line 104: before
    [list.remove], on a new and empty canvas, whether the name is in
    the list or not. *)
Theorem unresolved_color_raises_first
        (start multiplier modulus iterations : Z) (direction : bool)
        (background_color text_color : string) (recursive : bool)
        (to_rgb : string → option rgb) (rnd : nat → nat) (w : world) :
  1 ≤ modulus →
  to_rgb background_color = None ∨
  (to_rgb text_color = None ∧ text_color ≠ "auto") →
  plot_modulus_circle start multiplier modulus iterations direction
    background_color text_color recursive to_rgb rnd w
  = (match to_rgb background_color with
     | None => Raise ValueError_to_rgb
     | Some _ => Raise ValueError_color_like
     end, fresh_world (draws w)).
Proof.
  intros Hm Hcolor. rewrite plot_modulus_circle_run by assumption.
  unfold run_colors, set_facecolor, text_set_color.
  destruct (to_rgb background_color) as [v|]; [|reflexivity].
  destruct Hcolor as [?|[Hfg Hauto]]; [discriminate|]. simpl.
  destruct (decide (text_color = "auto")); [contradiction|].
  by rewrite Hfg.
Qed.

Lemma unresolved_color_raises_first_witness :
  plot_modulus_circle 2 2 9 18 true "orange" "notacolor" true
    css_samples first_choice (fresh_world 4)
  = (match css_samples "orange" with
     | None => Raise ValueError_to_rgb
     | Some _ => Raise ValueError_color_like
     end, fresh_world (draws (fresh_world 4))).
Proof.
  apply (unresolved_color_raises_first 2 2 9 18 true "orange" "notacolor" true
           css_samples first_choice (fresh_world 4)); [lia|].
  right. split; [reflexivity|discriminate].
Defined.

(** ** More on the colours *)

Lemma filter_colors_loop_unresolved
      (to_rgb : string → option rgb) (low high : float) (c : string)
      (color_list : list string) :
  c ∈ color_list → to_rgb c = None →
  ∀ filtered_colors,
    filter_colors_loop to_rgb color_list filtered_colors low high
    = Raise ValueError_to_rgb.
Proof.
  intros Hin Hc. induction color_list as [|x l IH]; intros acc.
  { by apply elem_of_nil in Hin. }
  simpl. destruct (to_rgb x) as [v|] eqn:Hx; [|reflexivity].
  apply elem_of_cons in Hin as [->|Hin]; [congruence|].
  destruct (in_band low high (luminance v)); by apply IH.
Qed.

(** X19. One name that [mcolors.to_rgb] does not resolve, anywhere in
    the list, makes [filter_colors] raise its [ValueError], whatever
    the thresholds and whatever the other names: no partial list is
    returned. *)
Theorem filter_colors_raises_on_unresolved
        (to_rgb : string → option rgb) (color_list : list string)
        (low high : float) (c : string) :
  c ∈ color_list → to_rgb c = None →
  filter_colors to_rgb color_list low high = Raise ValueError_to_rgb.
Proof.
  intros Hin Hc. by apply (filter_colors_loop_unresolved to_rgb low high c).
Qed.

Lemma filter_colors_raises_on_unresolved_witness :
  filter_colors three_grays ["gray"; "white"; "teal"; "black"] 0.3 0.7
  = Raise ValueError_to_rgb.
Proof.
  apply (filter_colors_raises_on_unresolved three_grays
           ["gray"; "white"; "teal"; "black"] 0.3%float 0.7%float "teal");
    [|reflexivity].
  apply (bool_decide_unpack _). vm_compute. reflexivity.
Defined.

Lemma filter_filter {A : Type} (f : A → bool) (l : list A) :
  List.filter f (List.filter f l) = List.filter f l.
Proof.
  induction l as [|x l IH]; [reflexivity|]. simpl.
  destruct (f x) eqn:E; [|exact IH]. simpl. by rewrite E, IH.
Qed.

(** X20. Filtering a second time with the same thresholds changes
    nothing: what [filter_colors] has returned, it returns again as it
    is. *)
Theorem filter_colors_idempotent
        (to_rgb : string → option rgb) (color_list out : list string)
        (low high : float) :
  filter_colors to_rgb color_list low high = Ok out →
  filter_colors to_rgb out low high = Ok out.
Proof.
  intros H. apply filter_colors_loop_spec in H. simpl in H.
  destruct (filter_colors_loop_returns to_rgb low high out) with (filtered_colors := @nil string)
    as [out' Hout'].
  { subst out. apply Forall_forall. intros c Hc.
    apply list_elem_of_In, filter_In in Hc as [_ Hc].
    apply retained_spec in Hc as (v & -> & _). by eexists. }
  unfold filter_colors. rewrite Hout'. f_equal.
  apply filter_colors_loop_spec in Hout'. simpl in Hout'.
  rewrite Hout', H. apply filter_filter.
Qed.

Lemma filter_colors_idempotent_witness :
  filter_colors three_grays ["gray"; "gray"] 0.3 0.7 = Ok ["gray"; "gray"].
Proof.
  apply (filter_colors_idempotent three_grays
           ["white"; "gray"; "black"; "gray"] ["gray"; "gray"]
           0.3%float 0.7%float).
  vm_compute. reflexivity.
Defined.

Lemma list_remove_length (x : string) (l l' : list string) :
  list_remove x l = Ok l' → length l = S (length l').
Proof.
  revert l'. induction l as [|y l IH]; intros l'; simpl; [discriminate|].
  destruct (decide (y = x)); [by intros [= <-]|].
  destruct (list_remove x l) as [r|e]; [|discriminate].
  intros [= <-]. simpl. f_equal. by apply IH.
Qed.

(** X21. With two different names of the list for the background and
    the text, and a [mcolors.to_rgb] that resolves every name of the
    list, the palette is there: it holds, in the order of the list,
    exactly the other names whose luminance passes the default test,
    at most 145 of them. *)
Theorem palette_is_the_filtered_list
        (background_color text_color : string)
        (to_rgb : string → option rgb) :
  background_color ∈ named_colors → text_color ∈ named_colors →
  background_color ≠ text_color →
  Forall (λ c, is_Some (to_rgb c)) named_colors →
  ∃ colors,
    palette background_color text_color to_rgb = Ok colors ∧
    sublist colors named_colors ∧
    (length colors ≤ 145)%nat ∧
    ∀ c, c ∈ colors ↔
         c ∈ named_colors ∧ c ≠ background_color ∧ c ≠ text_color ∧
         retained to_rgb default_low default_high c = true.
Proof.
  intros Hbg Hfg Hne Hall.
  destruct (palette_returns background_color text_color to_rgb Hbg Hfg Hne Hall)
    as [colors Hpal].
  exists colors. split; [exact Hpal|].
  destruct (palette_members _ _ _ _ Hpal) as [Hsub Hmem].
  split; [exact Hsub|]. split; [|exact Hmem].
  unfold palette in Hpal.
  destruct (list_remove background_color named_colors) as [colors1|] eqn:H1;
    [|discriminate]. simpl in Hpal.
  destruct (list_remove text_color colors1) as [colors2|] eqn:H2;
    [|discriminate]. simpl in Hpal.
  apply filter_colors_loop_spec in Hpal. simpl in Hpal.
  apply list_remove_length in H1, H2. rewrite named_colors_length in H1.
  pose proof (sublist_length _ _ (filter_sublist
                (retained to_rgb default_low default_high) colors2)) as Hlen.
  rewrite <- Hpal in Hlen. lia.
Qed.

Lemma palette_is_the_filtered_list_witness :
  ∃ colors,
    palette "black" "white" mid_gray = Ok colors ∧
    sublist colors named_colors ∧
    (length colors ≤ 145)%nat ∧
    ∀ c, c ∈ colors ↔
         c ∈ named_colors ∧ c ≠ "black" ∧ c ≠ "white" ∧
         retained mid_gray default_low default_high c = true.
Proof.
  apply (palette_is_the_filtered_list "black" "white" mid_gray).
  - apply (bool_decide_unpack _). vm_compute. reflexivity.
  - apply (bool_decide_unpack _). vm_compute. reflexivity.
  - discriminate.
  - apply Forall_forall. intros c _. by eexists.
Defined.

(** ** The labels of the figure *)

(** X22. The font size of the labels, for a modulus of at least 1,
    lies between 12 and 30, never grows with the modulus, and is 12
    exactly from modulus 54 on. *)
Theorem text_scale_bounds (modulus modulus' : Z) :
  1 ≤ modulus → modulus ≤ modulus' →
  12 ≤ text_scale modulus ≤ 30 ∧
  text_scale modulus' ≤ text_scale modulus ∧
  (text_scale modulus = 12 ↔ 54 ≤ modulus).
Proof.
  intros Hm Hle. unfold text_scale.
  pose proof (Z.div_pos modulus 3 ltac:(lia) ltac:(lia)).
  pose proof (Z.div_le_mono modulus modulus' 3 ltac:(lia) Hle).
  pose proof (Z.div_mod modulus 3 ltac:(lia)).
  pose proof (Z.mod_pos_bound modulus 3 ltac:(lia)).
  repeat split; lia.
Qed.

Lemma text_scale_bounds_witness :
  12 ≤ text_scale 9 ≤ 30 ∧
  text_scale 100 ≤ text_scale 9 ∧
  (text_scale 9 = 12 ↔ 54 ≤ 9).
Proof. apply (text_scale_bounds 9 100); lia. Defined.

(** X23. The place where [plot_path] draws a point is the place that
    carries its number: for a point [p] of [1 .. modulus], [angles]
    gives entry [p - 1], which the figure labels [str(p)]; the point 0
    gets the last entry, labelled [str(modulus)].  No two entries
    carry the same label. *)
Theorem points_are_drawn_at_their_labels (modulus p : Z) :
  1 ≤ p ≤ modulus →
  angles_index modulus (p - 1) = Ok (p - 1) ∧
  (p - 1, pretty p) ∈ point_labels modulus ∧
  angles_index modulus (0 - 1) = Ok (modulus - 1) ∧
  (modulus - 1, pretty modulus) ∈ point_labels modulus ∧
  NoDup (point_labels modulus).*2 ∧
  length (point_labels modulus) = Z.to_nat modulus.
Proof.
  intros Hp. unfold point_labels.
  assert (∀ q, 1 ≤ q ≤ modulus →
            (q - 1, pretty q) ∈ (λ i, (i, pretty (i + 1))) <$> seqZ 0 modulus)
    as Hlabel.
  { intros q Hq. apply list_elem_of_fmap. exists (q - 1). split.
    - by replace (q - 1 + 1) with q by lia.
    - apply elem_of_seqZ. lia. }
  split; [by apply angles_index_in_range|].
  split; [by apply Hlabel|]. split.
  { unfold angles_index.
    destruct (Z.leb_spec 0 (0 - 1)); [lia|]. simpl.
    destruct (Z.leb_spec (- modulus) (0 - 1)); [|lia].
    destruct (Z.ltb_spec (0 - 1) 0); [|lia]. simpl. f_equal. lia. }
  split; [apply Hlabel; lia|]. split.
  - rewrite <- list_fmap_compose.
    apply NoDup_fmap_2; [|apply NoDup_seqZ].
    intros i j Hij. simpl in Hij. apply (inj pretty) in Hij. lia.
  - by rewrite length_fmap, length_seqZ.
Qed.

Lemma points_are_drawn_at_their_labels_witness :
  angles_index 9 (4 - 1) = Ok (4 - 1) ∧
  (4 - 1, pretty 4) ∈ point_labels 9 ∧
  angles_index 9 (0 - 1) = Ok (9 - 1) ∧
  (9 - 1, pretty 9) ∈ point_labels 9 ∧
  NoDup (point_labels 9).*2 ∧
  length (point_labels 9) = Z.to_nat 9.
Proof. apply (points_are_drawn_at_their_labels 9 4). lia. Defined.

Example point_labels_3 :
  point_labels 3 = [(0, "1"); (1, "2"); (2, "3")]%string.
Proof. vm_compute. reflexivity. Qed.

(** ** The first path closes *)

Section Orbit.
Variables multiplier modulus : Z.
Hypothesis modulus_positive : 1 ≤ modulus.
Hypothesis multiplier_nonzero : multiplier ≠ 0.
Hypothesis coprime : Z.gcd multiplier modulus = 1.

Local Abbreviation f := (forward_point multiplier modulus).

Lemma forward_point_in_range (p : Z) : 1 ≤ f p ≤ modulus.
Proof.
  unfold forward_point.
  pose proof (Z.mod_pos_bound (p * multiplier - 1) modulus). lia.
Qed.

Lemma forward_point_step (p : Z) :
  p ≠ 0 → next_number multiplier modulus true p = Ok (f p).
Proof.
  intros Hp. rewrite next_number_forward. apply digital_root_nonzero; [|lia].
  by apply Z.neq_mul_0.
Qed.

Lemma forward_point_inj (p q : Z) :
  1 ≤ p ≤ modulus → 1 ≤ q ≤ modulus → f p = f q → p = q.
Proof.
  intros Hp Hq Heq.
  pose proof (forward_point_step p ltac:(lia)) as Hpr.
  pose proof (forward_point_step q ltac:(lia)) as Hqr.
  rewrite next_number_forward in Hpr, Hqr. rewrite <- Heq in Hqr.
  assert (p * multiplier ≠ 0) as Hpm by (apply Z.neq_mul_0; lia).
  assert (q * multiplier ≠ 0) as Hqm by (apply Z.neq_mul_0; lia).
  pose proof (digital_root_congr _ _ _ Hpm modulus_positive Hpr) as Hpc.
  pose proof (digital_root_congr _ _ _ Hqm modulus_positive Hqr) as Hqc.
  apply (point_unique modulus); [assumption..|].
  apply (Z.gauss modulus multiplier); [|by rewrite Z.gcd_comm].
  replace (multiplier * (p - q))
    with ((f p - q * multiplier) - (f p - p * multiplier)) by ring.
  by apply Z.divide_sub_r.
Qed.

Lemma iter_in_range (x : Z) (i : nat) :
  1 ≤ x ≤ modulus → 1 ≤ Nat.iter i f x ≤ modulus.
Proof. intros Hx. destruct i; [exact Hx|]. simpl. apply forward_point_in_range. Qed.

(** Two iterates that meet: the later one is the start again. *)
Lemma iter_cancel (x : Z) (i d : nat) :
  1 ≤ x ≤ modulus →
  Nat.iter i f x = Nat.iter (i + d) f x → x = Nat.iter d f x.
Proof.
  intros Hx. induction i as [|i IH]; [done|].
  simpl. intros H. apply IH.
  by apply forward_point_inj; [apply iter_in_range..|].
Qed.

(** As long as the iterates do not come back to the start, they are
    all different. *)
Lemma orbit_NoDup (x : Z) (k : nat) :
  1 ≤ x ≤ modulus →
  (∀ i, (1 ≤ i ≤ k)%nat → Nat.iter i f x ≠ x) →
  NoDup ((λ i, Nat.iter i f x) <$> seq 0 (S k)).
Proof.
  intros Hx Hno. apply NoDup_fmap_2_strong; [|apply NoDup_seq].
  assert (∀ i j, (i ≤ j ≤ k)%nat → Nat.iter i f x = Nat.iter j f x → i = j)
    as Hle.
  { intros i j Hij Heq.
    replace j with (i + (j - i))%nat in Heq by lia.
    apply iter_cancel in Heq; [|exact Hx].
    destruct (decide (j - i = 0)%nat); [lia|].
    exfalso. apply (Hno (j - i)%nat); [lia|done]. }
  intros i j Hi Hj Heq. apply elem_of_seq in Hi, Hj.
  destruct (decide (i ≤ j)%nat).
  - apply Hle; [lia|exact Heq].
  - symmetry. apply Hle; [lia|done].
Qed.

Lemma points_are_few (l : list Z) :
  NoDup l → Forall (λ x, 1 ≤ x ≤ modulus) l → (length l ≤ Z.to_nat modulus)%nat.
Proof.
  intros Hnd Hall. rewrite <- (length_seqZ 1 modulus).
  apply submseteq_length, NoDup_submseteq; [exact Hnd|].
  intros x Hx. apply elem_of_seqZ.
  apply (proj1 (Forall_forall _ _) Hall) in Hx. lia.
Qed.

(** The first return to the start, searched up to a bound. *)
Lemma first_return_upto (x : Z) (b : nat) :
  (∃ k, (1 ≤ k ≤ b)%nat ∧ Nat.iter k f x = x ∧
        ∀ i, (1 ≤ i < k)%nat → Nat.iter i f x ≠ x) ∨
  (∀ i, (1 ≤ i ≤ b)%nat → Nat.iter i f x ≠ x).
Proof.
  induction b as [|b [(k & Hk & Hret & Hleast)|Hnone]].
  - right. intros i Hi. lia.
  - left. exists k. split; [lia|done].
  - destruct (decide (Nat.iter (S b) f x = x)) as [Heq|Hne].
    + left. exists (S b). split; [lia|]. split; [exact Heq|].
      intros i Hi. apply Hnone. lia.
    + right. intros i Hi. destruct (decide (i = S b)) as [->|]; [exact Hne|].
      apply Hnone. lia.
Qed.

(** A point of the circle comes back to itself within [modulus]
    forward steps. *)
Lemma first_return (x : Z) :
  1 ≤ x ≤ modulus →
  ∃ k, (1 ≤ k ≤ Z.to_nat modulus)%nat ∧ Nat.iter k f x = x ∧
       ∀ i, (1 ≤ i < k)%nat → Nat.iter i f x ≠ x.
Proof.
  intros Hx.
  destruct (first_return_upto x (Z.to_nat modulus)) as [H|Hnone]; [exact H|].
  exfalso.
  pose proof (orbit_NoDup x (Z.to_nat modulus) Hx Hnone) as Hnd.
  apply points_are_few in Hnd.
  - rewrite length_fmap, length_seq in Hnd. lia.
  - apply Forall_fmap, Forall_forall. intros i _. simpl. by apply iter_in_range.
Qed.

(** The loop of a forward path that meets [start] after [k] steps:
    it returns, with [k] arrows from the [k] first iterates. *)
Lemma plot_path_loop_closes (start : Z) (c : string) (k : nat) :
  ∀ (n : nat) (cur : Z),
    (1 ≤ k ≤ n)%nat → 1 ≤ cur ≤ modulus →
    Nat.iter k f cur = start →
    (∀ i, (1 ≤ i < k)%nat → Nat.iter i f cur ≠ start) →
    ∃ es,
      (∀ w, plot_path_loop start multiplier modulus true n cur c w
            = (Ok tt, after_arrows es w)) ∧
      length es = k ∧
      end_point cur es = start ∧
      from_point <$> es = (λ i, Nat.iter i f cur) <$> seq 0 k.
Proof.
  induction k as [|k IH]; intros n cur Hk Hcur Hret Hleast; [lia|].
  destruct n as [|n]; [lia|].
  pose proof (forward_point_step cur ltac:(lia)) as Hs.
  pose proof (forward_point_in_range cur) as Hnext.
  destruct (decide (k = 0)%nat) as [->|Hk0].
  - simpl in Hret. exists [Arrow cur (f cur) c]. split; [|by rewrite Hret].
    intros w. rewrite plot_path_loop_S, Hs, !angles_index_in_range by assumption.
    destruct (Z.eqb_spec (f cur) start); [|contradiction].
    by rewrite <- after_arrows_cons, after_arrows_nil.
  - destruct (IH n (f cur)) as (es & Hrun & Hlen & Hend & Hsrc).
    + lia.
    + exact Hnext.
    + by rewrite <- Nat.iter_succ_r.
    + intros i Hi. rewrite <- Nat.iter_succ_r. apply Hleast. lia.
    + exists (Arrow cur (f cur) c :: es). split; [|split; [|split]].
      * intros w.
        rewrite plot_path_loop_S, Hs, !angles_index_in_range by assumption.
        destruct (Z.eqb_spec (f cur) start) as [Heq|_].
        { exfalso. apply (Hleast 1%nat); [lia|exact Heq]. }
        by rewrite Hrun, after_arrows_cons.
      * simpl. by rewrite Hlen.
      * by rewrite end_point_cons.
      * rewrite fmap_cons, Hsrc.
        change (seq 0 (S k)) with (0%nat :: seq 1 k). rewrite fmap_cons.
        f_equal. rewrite <- fmap_S_seq, <- list_fmap_compose.
        apply list_fmap_ext. intros _ i _. simpl. by rewrite <- Nat.iter_succ_r.
Qed.
End Orbit.

(** X24. With a non-zero multiplier coprime to the modulus, a start
    point in [1 .. modulus], the forward direction and at least
    [modulus] iterations, the first path is a closed cycle: it returns,
    its last arrow comes back to [start], it has at most [modulus]
    arrows and no two of them leave from the same point. *)
Theorem first_path_closes
        (start multiplier modulus iterations : Z) (color : string) (w : world) :
  multiplier ≠ 0 → Z.gcd multiplier modulus = 1 →
  1 ≤ start ≤ modulus → modulus ≤ iterations →
  let r := plot_path start multiplier modulus iterations true start color w in
  fst r = Ok tt ∧
  ∃ es,
    arrows (snd r) = arrows w ++ es ∧
    es ≠ [] ∧
    (length es ≤ Z.to_nat modulus)%nat ∧
    end_point start es = start ∧
    NoDup (from_point <$> es).
Proof.
  intros Hmul Hg Hs Hit r. subst r.
  assert (1 ≤ modulus) as Hm by lia.
  destruct (first_return multiplier modulus Hm Hmul Hg start Hs)
    as (k & Hk & Hret & Hleast).
  destruct (plot_path_loop_closes multiplier modulus Hm Hmul start color k
              (Z.to_nat iterations) start) as (es & Hrun & Hlen & Hend & Hsrc);
    [lia|exact Hs|exact Hret|exact Hleast|].
  unfold plot_path, m_bind, begin_path. rewrite Hrun. simpl.
  split; [reflexivity|]. exists es. split; [reflexivity|].
  split; [intros ->; simpl in Hlen; lia|]. split; [lia|]. split; [exact Hend|].
  rewrite Hsrc. destruct k as [|k]; [lia|].
  apply (orbit_NoDup multiplier modulus Hm Hmul Hg start k Hs).
  intros i Hi. apply Hleast. lia.
Qed.

Lemma first_path_closes_witness :
  let r := plot_path 1 7 100 100 true 1 "gray" (fresh_world 0) in
  fst r = Ok tt ∧
  ∃ es,
    arrows (snd r) = arrows (fresh_world 0) ++ es ∧
    es ≠ [] ∧
    (length es ≤ Z.to_nat 100)%nat ∧
    end_point 1 es = 1 ∧
    NoDup (from_point <$> es).
Proof.
  apply (first_path_closes 1 7 100 100 "gray" (fresh_world 0));
    [lia|reflexivity|lia|lia].
Defined.


(** ** The point [modulus] *)

Lemma chain_keeps (P : Z → Prop) (step : Z → result Z) (es : list arrow) :
  (∀ q r, P q → step q = Ok r → P r) →
  ∀ p, P p → chain_from p es →
       Forall (λ a, step (from_point a) = Ok (to_point a)) es →
       Forall (λ a, P (from_point a) ∧ P (to_point a)) es.
Proof.
  intros Hstep. induction es as [|a es IH]; intros p Hp Hchain Hall;
    [constructor|].
  destruct Hchain as [Hfrom Hchain]. apply Forall_cons in Hall as [Ha Hall].
  rewrite Hfrom in Ha.
  assert (P (to_point a)) as Hto by (by apply (Hstep p)).
  constructor; [by rewrite Hfrom|]. by apply (IH (to_point a)).
Qed.

(** X25. Forward, with a non-zero multiplier coprime to the modulus:
    the point [modulus] is a fixed point of the step, and no other
    point of the circle steps to it.  So a run from a start point of
    [1 .. modulus - 1] draws no arrow from or to the point [modulus]:
    the loop over the unvisited points, which skips it, leaves out
    nothing but its arrow to itself. *)
Theorem last_point_is_isolated
        (start multiplier modulus iterations : Z)
        (background_color text_color : string) (recursive : bool)
        (to_rgb : string → option rgb) (rnd : nat → nat) (w : world) :
  multiplier ≠ 0 → Z.gcd multiplier modulus = 1 →
  1 ≤ start ≤ modulus - 1 →
  next_number multiplier modulus true modulus = Ok modulus ∧
  Forall (λ a, 1 ≤ from_point a ≤ modulus - 1 ∧ 1 ≤ to_point a ≤ modulus - 1)
         (arrows (snd (plot_modulus_circle start multiplier modulus iterations
                         true background_color text_color recursive to_rgb
                         rnd w))).
Proof.
  intros Hmul Hg Hs.
  assert (1 ≤ modulus) as Hm by lia.
  assert (next_number multiplier modulus true modulus = Ok modulus) as Hfix.
  { rewrite next_number_forward.
    rewrite (digital_root_congruent (modulus * multiplier) modulus modulus);
      [|apply Z.neq_mul_0; lia|lia|lia|].
    - rewrite digital_root_nonzero by lia. rewrite Z.mod_small by lia.
      f_equal. lia.
    - exists (multiplier - 1). ring. }
  split; [exact Hfix|].
  assert (∀ q r, 1 ≤ q ≤ modulus - 1 →
                 next_number multiplier modulus true q = Ok r →
                 1 ≤ r ≤ modulus - 1) as Hstep.
  { intros q r Hq Hr.
    assert (1 ≤ r ≤ modulus) as Hrange.
    { apply (next_number_in_range multiplier modulus true q);
        [lia|exact Hmul|lia|exact Hr]. }
    destruct (Z.eq_dec r modulus) as [->|]; [exfalso|lia].
    rewrite (forward_point_step multiplier modulus Hm Hmul q) in Hr by lia.
    rewrite (forward_point_step multiplier modulus Hm Hmul modulus) in Hfix by lia.
    assert (q = modulus); [|lia].
    apply (forward_point_inj multiplier modulus Hm Hmul Hg); [lia|lia|].
    congruence. }
  apply (plot_modulus_circle_preserves start multiplier modulus iterations
           true background_color text_color recursive to_rgb rnd
           (λ w', Forall (λ a, 1 ≤ from_point a ≤ modulus - 1 ∧
                               1 ≤ to_point a ≤ modulus - 1) (arrows w')));
    [assumption|constructor|].
  intros colors seed c w' _ _ Hseed Hw'.
  destruct (plot_path_effect start multiplier modulus iterations true seed c)
    as (res & es & Hrun & _ & Hchain & Hall & _).
  rewrite Hrun. simpl. apply Forall_app. split; [exact Hw'|].
  apply (chain_keeps (λ q, 1 ≤ q ≤ modulus - 1)
           (next_number multiplier modulus true) es Hstep seed);
    [destruct Hseed; lia|exact Hchain|].
  eapply Forall_impl; [exact Hall|]. by intros a [? _].
Qed.

Lemma last_point_is_isolated_witness :
  next_number 7 100 true 100 = Ok 100 ∧
  Forall (λ a, 1 ≤ from_point a ≤ 100 - 1 ∧ 1 ≤ to_point a ≤ 100 - 1)
         (arrows (snd (plot_modulus_circle 1 7 100 100 true "black" "white"
                         true mid_gray first_choice (fresh_world 0)))).
Proof.
  apply (last_point_is_isolated 1 7 100 100 "black" "white" true
           mid_gray first_choice (fresh_world 0)); [lia|reflexivity|lia].
Defined.

(** ** Backward is forward with the inverse *)

Lemma for_each_ext {A : Type} (body body' : A → M unit) (l : list A) :
  (∀ x w, body x w = body' x w) →
  ∀ w, for_each l body w = for_each l body' w.
Proof.
  intros Hb. induction l as [|x l IH]; intros w; [reflexivity|].
  simpl. unfold m_bind. rewrite Hb.
  destruct (body' x w) as [[[]|e] w1]; [apply IH|reflexivity].
Qed.

Section Backward.
Variables start multiplier inverse_multiplier modulus iterations : Z.
Hypothesis inverse :
  pow_neg1 multiplier modulus = Ok inverse_multiplier.

Lemma next_number_backward_forward (p : Z) :
  next_number multiplier modulus false p
  = next_number inverse_multiplier modulus true p.
Proof. unfold next_number. by rewrite inverse. Qed.

Lemma plot_path_loop_backward_forward (n : nat) :
  ∀ cur c w,
    plot_path_loop start multiplier modulus false n cur c w
    = plot_path_loop start inverse_multiplier modulus true n cur c w.
Proof.
  induction n as [|n IH]; intros cur c w; [reflexivity|].
  rewrite !plot_path_loop_S, next_number_backward_forward.
  destruct (next_number inverse_multiplier modulus true cur); [|reflexivity].
  destruct (angles_index modulus (cur - 1)); [|reflexivity].
  destruct (angles_index modulus (a - 1)); [|reflexivity].
  destruct (a =? start); [reflexivity|apply IH].
Qed.

Lemma plot_path_backward_forward (_start : Z) (c : string) (w : world) :
  plot_path start multiplier modulus iterations false _start c w
  = plot_path start inverse_multiplier modulus iterations true _start c w.
Proof.
  unfold plot_path, m_bind, begin_path. apply plot_path_loop_backward_forward.
Qed.
End Backward.

(** X26. When [pow(multiplier, -1, modulus)] returns, a backward run
    with [multiplier] is, arrow for arrow and colour for colour, the
    forward run with that inverse as its multiplier. *)
Theorem backward_is_forward_with_inverse
        (start multiplier inverse_multiplier modulus iterations : Z)
        (background_color text_color : string) (recursive : bool)
        (to_rgb : string → option rgb) (rnd : nat → nat) (w : world) :
  pow_neg1 multiplier modulus = Ok inverse_multiplier →
  plot_modulus_circle start multiplier modulus iterations false
    background_color text_color recursive to_rgb rnd w
  = plot_modulus_circle start inverse_multiplier modulus iterations true
      background_color text_color recursive to_rgb rnd w.
Proof.
  intros Hinv. unfold plot_modulus_circle, m_bind.
  destruct ((if modulus =? 0 then raise ZeroDivisionError else m_ret ()) w)
    as [[[]|e] w1]; [|reflexivity].
  destruct ((if modulus <? 0 then raise ValueError_linspace else m_ret ()) w1)
    as [[[]|e] w2]; [|reflexivity].
  destruct (new_canvas w2) as [[[]|e] w3]; [|reflexivity].
  destruct (lift (set_facecolor to_rgb background_color) w3)
    as [[[]|e] w3a]; [|reflexivity].
  destruct (lift (set_facecolor to_rgb background_color) w3a)
    as [[[]|e] w3b]; [|reflexivity].
  destruct (plot_points modulus text_color to_rgb w3b)
    as [[[]|e] w3c]; [|reflexivity].
  destruct (lift (palette background_color text_color to_rgb) w3c)
    as [[colors|e] w4]; [|reflexivity].
  unfold plot_paths, m_bind.
  destruct (random_choice rnd colors w4) as [[c|e] w5]; [|reflexivity].
  rewrite (plot_path_backward_forward start multiplier inverse_multiplier
             modulus iterations Hinv).
  destruct (plot_path start inverse_multiplier modulus iterations true start c w5)
    as [[[]|e] w6]; [|reflexivity].
  destruct recursive; [|reflexivity].
  apply for_each_ext. intros p w7. rewrite !plot_unvisited_run.
  destruct (bool_decide (p ∉ visited w7) && negb (p =? modulus)); [|reflexivity].
  destruct (random_choice rnd colors w7) as [[c'|e] w8]; [|reflexivity].
  by apply plot_path_backward_forward.
Qed.

Lemma backward_is_forward_with_inverse_witness :
  plot_modulus_circle 1 7 100 100 false "black" "white" true
    mid_gray first_choice (fresh_world 0)
  = plot_modulus_circle 1 43 100 100 true "black" "white" true
      mid_gray first_choice (fresh_world 0).
Proof.
  apply (backward_is_forward_with_inverse 1 7 43 100 100 "black" "white" true
           mid_gray first_choice (fresh_world 0)).
  vm_compute. reflexivity.
Defined.

(** ** The figure does not depend on the colours *)

Lemma sources_of_edges (es : list arrow) :
  from_point <$> es = (edges es).*1.
Proof. unfold edges. induction es as [|a es IH]; [reflexivity|]. simpl. by f_equal. Qed.

Lemma edges_app (l1 l2 : list arrow) : edges (l1 ++ l2) = edges l1 ++ edges l2.
Proof. unfold edges. apply map_app. Qed.

Lemma same_shape_after_path (seed : Z) (c c' : string) (es es' : list arrow)
      (w w' : world) :
  same_shape w w' → edges es = edges es' →
  same_shape (after_arrows es (after_begin seed c (after_draw w)))
             (after_arrows es' (after_begin seed c' (after_draw w'))).
Proof.
  intros (Hv & He & Hp) Hes. unfold same_shape. simpl.
  rewrite !edges_app, !fmap_app, !sources_of_edges, Hv, He, Hp, Hes. done.
Qed.

Section Shape.
Variables start multiplier modulus iterations : Z.
Variable direction : bool.
Variable recursive : bool.
Variables rnd rnd' : nat → nat.
Variables colors colors' : list string.
Hypothesis colors_not_empty : colors ≠ [].
Hypothesis colors'_not_empty : colors' ≠ [].

Local Abbreviation loop := (plot_path_loop start multiplier modulus direction).
Local Abbreviation path := (plot_path start multiplier modulus iterations direction).

(** The loop in two colours: the same result, the same arrows end to
    end. *)
Lemma plot_path_loop_two_colors (n : nat) :
  ∀ (cur : Z) (c c' : string),
  ∃ res es es',
    (∀ w, loop n cur c w = (res, after_arrows es w)) ∧
    (∀ w, loop n cur c' w = (res, after_arrows es' w)) ∧
    edges es = edges es'.
Proof.
  induction n as [|n IH]; intros cur c c'.
  { exists (Ok tt), [], []. split; [|split; [|done]];
      intros w; by rewrite after_arrows_nil. }
  destruct (next_number multiplier modulus direction cur) as [next|e] eqn:Hs.
  2: { exists (Raise e), [], []. split; [|split; [|done]];
         intros w; by rewrite plot_path_loop_S, Hs, after_arrows_nil. }
  destruct (angles_index modulus (cur - 1)) as [i1|e] eqn:Ha.
  2: { exists (Raise e), [], []. split; [|split; [|done]];
         intros w; by rewrite plot_path_loop_S, Hs, Ha, after_arrows_nil. }
  destruct (angles_index modulus (next - 1)) as [i2|e] eqn:Hb.
  2: { exists (Raise e), [], []. split; [|split; [|done]];
         intros w; by rewrite plot_path_loop_S, Hs, Ha, Hb, after_arrows_nil. }
  destruct (next =? start) eqn:Hn.
  - exists (Ok tt), [Arrow cur next c], [Arrow cur next c'].
    split; [|split; [|done]]; intros w;
      by rewrite plot_path_loop_S, Hs, Ha, Hb, Hn,
           <- after_arrows_cons, after_arrows_nil.
  - destruct (IH next c c') as (res & es & es' & Hrun & Hrun' & Hes).
    exists res, (Arrow cur next c :: es), (Arrow cur next c' :: es').
    split; [|split].
    + intros w. by rewrite plot_path_loop_S, Hs, Ha, Hb, Hn, Hrun, after_arrows_cons.
    + intros w. by rewrite plot_path_loop_S, Hs, Ha, Hb, Hn, Hrun', after_arrows_cons.
    + unfold edges in *. simpl. by rewrite Hes.
Qed.

Lemma plot_path_same_shape (seed : Z) (c c' : string) (w w' : world) :
  same_shape w w' →
  fst (path seed c (after_draw w)) = fst (path seed c' (after_draw w')) ∧
  same_shape (snd (path seed c (after_draw w)))
             (snd (path seed c' (after_draw w'))).
Proof.
  intros Hw. unfold plot_path, m_bind, begin_path.
  destruct (plot_path_loop_two_colors (Z.to_nat iterations) seed c c')
    as (res & es & es' & Hrun & Hrun' & Hes).
  rewrite Hrun, Hrun'. split; [reflexivity|].
  by apply (same_shape_after_path seed c c' es es' w w').
Qed.

Lemma plot_unvisited_same_shape (p : Z) (w w' : world) :
  same_shape w w' →
  let r := plot_unvisited start multiplier modulus iterations direction rnd
             colors p w in
  let r' := plot_unvisited start multiplier modulus iterations direction rnd'
              colors' p w' in
  fst r = fst r' ∧ same_shape (snd r) (snd r').
Proof.
  intros Hw. cbv zeta. rewrite !plot_unvisited_run.
  destruct Hw as (Hv & He & Hp). rewrite <- Hv.
  destruct (bool_decide (p ∉ visited w) && negb (p =? modulus)).
  2: { split; [reflexivity|]. by split. }
  destruct (random_choice_spec rnd colors w) as [[? _]|(c & _ & ->)];
    [contradiction|].
  destruct (random_choice_spec rnd' colors' w') as [[? _]|(c' & _ & ->)];
    [contradiction|].
  apply plot_path_same_shape. by split.
Qed.

Lemma for_each_same_shape (l : list Z) :
  ∀ w w', same_shape w w' →
    let r := for_each l (plot_unvisited start multiplier modulus iterations
                           direction rnd colors) w in
    let r' := for_each l (plot_unvisited start multiplier modulus iterations
                            direction rnd' colors') w' in
    fst r = fst r' ∧ same_shape (snd r) (snd r').
Proof.
  induction l as [|x l IH]; intros w w' Hw; cbv zeta; [by split|].
  simpl. unfold m_bind.
  destruct (plot_unvisited_same_shape x w w' Hw) as [Hres Hsh].
  destruct (plot_unvisited start multiplier modulus iterations direction rnd
              colors x w) as [[[]|e] w1];
    destruct (plot_unvisited start multiplier modulus iterations direction rnd'
                colors' x w') as [[[]|e'] w1']; simpl in *; try discriminate.
  - by apply IH.
  - by split.
Qed.

Lemma plot_paths_same_shape (w w' : world) :
  same_shape w w' →
  let r := plot_paths start multiplier modulus iterations direction recursive
             rnd colors w in
  let r' := plot_paths start multiplier modulus iterations direction recursive
              rnd' colors' w' in
  fst r = fst r' ∧ same_shape (snd r) (snd r').
Proof.
  intros Hw. cbv zeta.
  destruct (plot_paths_run start multiplier modulus iterations direction
              recursive rnd colors w colors_not_empty) as (c & _ & ->).
  destruct (plot_paths_run start multiplier modulus iterations direction
              recursive rnd' colors' w' colors'_not_empty) as (c' & _ & ->).
  destruct (plot_path_same_shape start c c' w w' Hw) as [Hres Hsh].
  destruct (path start c (after_draw w)) as [[[]|e] w1];
    destruct (path start c' (after_draw w')) as [[[]|e'] w1'];
    simpl in *; try discriminate.
  - destruct recursive; [|by split]. by apply for_each_same_shape.
  - by split.
Qed.
End Shape.

(** X27. The figure does not depend on the colours: two runs with the
    same [start], [multiplier], [modulus], [iterations], [direction]
    and [recursive], each with colours that matplotlib takes and a
    palette that is not empty, but with
    different colour arguments, colour tables, random sources and
    earlier canvases, end with the same result, the same arrows from
    point to point in the same order, the same visited points and the
    same seeds. *)
Theorem shape_does_not_depend_on_colors
        (start multiplier modulus iterations : Z) (direction recursive : bool)
        (background_color text_color background_color' text_color' : string)
        (to_rgb to_rgb' : string → option rgb) (rnd rnd' : nat → nat)
        (colors colors' : list string) (w w' : world) :
  1 ≤ modulus →
  run_colors background_color text_color to_rgb = Ok colors → colors ≠ [] →
  run_colors background_color' text_color' to_rgb' = Ok colors' → colors' ≠ [] →
  let r := plot_modulus_circle start multiplier modulus iterations direction
             background_color text_color recursive to_rgb rnd w in
  let r' := plot_modulus_circle start multiplier modulus iterations direction
              background_color' text_color' recursive to_rgb' rnd' w' in
  fst r = fst r' ∧
  edges (arrows (snd r)) = edges (arrows (snd r')) ∧
  visited (snd r) = visited (snd r') ∧
  (paths (snd r)).*1 = (paths (snd r')).*1.
Proof.
  intros Hm Hpal Hne Hpal' Hne' r r'. subst r r'.
  rewrite !plot_modulus_circle_run, Hpal, Hpal' by assumption.
  destruct (plot_paths_same_shape start multiplier modulus iterations direction
              recursive rnd rnd' colors colors' Hne Hne'
              (fresh_world (draws w)) (fresh_world (draws w')))
    as (Hres & Hv & He & Hp); [by split|].
  auto.
Qed.

Lemma shape_does_not_depend_on_colors_witness :
  let r := plot_modulus_circle 2 2 9 18 true "black" "white" true
             mid_gray first_choice (fresh_world 0) in
  let r' := plot_modulus_circle 2 2 9 18 true "navy" "gold" true
              mid_gray (λ k, (7 * k)%nat) (fresh_world 3) in
  fst r = fst r' ∧
  edges (arrows (snd r)) = edges (arrows (snd r')) ∧
  visited (snd r) = visited (snd r') ∧
  (paths (snd r)).*1 = (paths (snd r')).*1.
Proof.
  apply (shape_does_not_depend_on_colors 2 2 9 18 true true
           "black" "white" "navy" "gold" mid_gray mid_gray
           first_choice (λ k, (7 * k)%nat)
           (match run_colors "black" "white" mid_gray with
            | Ok colors => colors | Raise _ => [] end)
           (match run_colors "navy" "gold" mid_gray with
            | Ok colors => colors | Raise _ => [] end)
           (fresh_world 0) (fresh_world 3));
    [lia|vm_compute; reflexivity|vm_compute; discriminate
    |vm_compute; reflexivity|vm_compute; discriminate].
Defined.
